(** * Subtitle synchronisation of the shadowing player

    A shallow embedding of the play page (src/pages/PlayPage.tsx, both
    variants found in the repository), of the subtitle types (src/types)
    and of the progress-persisting hook
    (src/hooks/useSubtitleIndexPersist.ts), with the properties of the
    specification stated over it.

    Conventions of the embedding.
    - A JavaScript number holding a time or an index is a [Z]; every time
      is in milliseconds, and the comparisons of the source are those of
      the order of [Z].  The media element keeps [currentTime] in
      seconds: the model stores the product [currentTime * 1000] that the
      page works with, and an assignment [currentTime = x / 1000] stores
      [x].
    - A JavaScript string is the list of its UTF-16 code units.
    - Objects that the page shares by reference (the subtitle object, its
      [entries] array, the entry objects) live in a store and are named
      by locations.  A location that the store does not hold reads as
      [undefined]; no state of the page has one.
    - A [TypeError] raised by reading a property of [undefined] is the
      completion [Throw]. *)

From Stdlib Require Import ZArith Lia.
From Equations Require Import Equations.
From stdpp Require Import gmap list.

Open Scope Z_scope.

(** ** Data model (src/types) *)

Definition jsstring := list N.

Record SubtitleEntry := mkEntry {
  index : Z;
  startTime : Z;
  endTime : Z;
  preciseStartTime : Z;
  preciseEndTime : Z;
  text : jsstring
}.

(** [PlayModeValues].  The first variant of the page calls the continuous
    mode [CONTINUOUS_PLAY], the types file and the second variant [OFF]. *)
Inductive PlayMode := CONTINUOUS_PLAY | SINGLE_PAUSE | SINGLE_LOOP.

Definition OFF : PlayMode := CONTINUOUS_PLAY.

Inductive Direction := next | previous.

(** Outcome of a piece of code that may raise. *)
Inductive Completion (A : Type) :=
| Normal (a : A)
| Throw.
Arguments Normal {A} a.
Arguments Throw {A}.

#[global] Instance Completion_ret : MRet Completion := fun _ a => Normal a.
#[global] Instance Completion_bind : MBind Completion := fun _ _ f c =>
  match c with
  | Normal a => f a
  | Throw => Throw
  end.

(** Reading a property of a value that may be [undefined]. *)
Definition prop {A B} (f : A -> B) (o : option A) : Completion B :=
  match o with
  | Some a => Normal (f a)
  | None => Throw
  end.

(** [a[i]] for an array [a] and an integer [i]: [undefined] outside the
    array. *)
Definition item {A} (a : list A) (i : Z) : option A :=
  if decide (0 <= i) then a !! Z.to_nat i else None.

(** ** Time-to-index resolver *)

Module Resolver.

(** The predicate handed to [findIndex] by [handleTimeUpdate]:
    [currentTimeMs >= entry.startTime && currentTimeMs < entry.endTime]. *)
Definition contains (currentTimeMs : Z) (entry : SubtitleEntry) : bool :=
  (startTime entry <=? currentTimeMs) && (currentTimeMs <? endTime entry).

(** [Array.prototype.findIndex]: the index of the first element that
    satisfies the predicate, [-1] when there is none. *)
Fixpoint findIndexFrom {A} (p : A -> bool) (l : list A) (i : Z) : Z :=
  match l with
  | [] => -1
  | x :: r => if p x then i else findIndexFrom p r (i + 1)
  end.

Definition findIndex {A} (p : A -> bool) (l : list A) : Z :=
  findIndexFrom p l 0.

(** The containment scan of [handleTimeUpdate]. *)
Definition containing (entries : list SubtitleEntry) (currentTimeMs : Z) : Z :=
  findIndex (contains currentTimeMs) entries.

(** The [while (left <= right)] loop of [findSubtitleIndexByTime], with
    the three loop variables as arguments ([left_] and [right_] stand for
    the source's [left] and [right]).  [entries[mid]] outside the array
    is [undefined], and reading [startTime] of it raises. *)
Equations? searchLoop (entries : list SubtitleEntry) (targetTime : Z)
  (direction : Direction) (left_ right_ result : Z) : Completion Z
  by wf (Z.to_nat (right_ - left_ + 1)) lt :=
  searchLoop entries targetTime direction left_ right_ result
    with Z_le_gt_dec left_ right_ => {
    | right _ => Normal result
    | left _ =>
        let mid := (left_ + right_) `div` 2 in
        match item entries mid with
        | None => Throw
        | Some entry =>
            match direction with
            | next =>
                if targetTime <? startTime entry
                then searchLoop entries targetTime direction left_ (mid - 1) mid
                else searchLoop entries targetTime direction (mid + 1) right_ result
            | previous =>
                if startTime entry <? targetTime
                then searchLoop entries targetTime direction (mid + 1) right_ mid
                else searchLoop entries targetTime direction left_ (mid - 1) result
            end
        end }.
Proof.
  all: assert (left_ <= (left_ + right_) `div` 2 <= right_)
         by (split; [apply Z.div_le_lower_bound | apply Z.div_le_upper_bound]; lia);
       lia.
Qed.

Definition findSubtitleIndexByTime (entries : list SubtitleEntry)
  (targetTime : Z) (direction : Direction) : Completion Z :=
  searchLoop entries targetTime direction 0 (Z.of_nat (length entries) - 1) (-1).

End Resolver.

(** ** The store of shared objects *)

Definition loc := positive.

(** A [Subtitle] object; [entries] refers to the array of entries. *)
Record Subtitle := mkSubtitle {
  id : Z;
  videoId : Z;
  entries : loc;
  createdAt : Z;
  lastSubtitleIndex : option Z
}.

Record Store := mkStore {
  entryObjs : gmap loc SubtitleEntry;
  arrays : gmap loc (list loc);
  subtitleObjs : gmap loc Subtitle
}.

(** [subtitle.entries], as the array of references it is. *)
Definition entryRefs (σ : Store) (subtitle : loc) : option (list loc) :=
  o ← subtitleObjs σ !! subtitle; arrays σ !! entries o.

(** [subtitle.entries[i]], a reference; [undefined] outside the array. *)
Definition entryRefAt (σ : Store) (subtitle : loc) (i : Z) : option loc :=
  refs ← entryRefs σ subtitle; item refs i.

(** The entry object that [subtitle.entries[i]] refers to, as it is now. *)
Definition entryAt (σ : Store) (subtitle : loc) (i : Z) : option SubtitleEntry :=
  r ← entryRefAt σ subtitle i; entryObjs σ !! r.

(** The entries seen by a reader that walks [subtitle.entries] now. *)
Definition entriesOf (σ : Store) (subtitle : loc) : option (list SubtitleEntry) :=
  refs ← entryRefs σ subtitle; mapM (fun r => entryObjs σ !! r) refs.

(** An assignment to properties of the entry object at [r]. *)
Definition updateEntry (r : loc) (f : SubtitleEntry -> SubtitleEntry)
  (σ : Store) : Store :=
  mkStore (alter f r (entryObjs σ)) (arrays σ) (subtitleObjs σ).

(** The object spread [{ ...subtitle }]: a new [Subtitle] object with the
    same property values, so the same [entries] array. *)
Definition spread (subtitle : loc) (σ : Store) : option (loc * Store) :=
  o ← subtitleObjs σ !! subtitle;
  let r := fresh (dom (subtitleObjs σ)) in
  Some (r, mkStore (entryObjs σ) (arrays σ) (<[r := o]> (subtitleObjs σ))).

(** ** The media element *)

Record Video := mkVideo {
  currentTimeMs : Z;
  paused : bool
}.

Definition seek (ms : Z) (v : Video) : Video := mkVideo ms (paused v).
Definition pause (v : Video) : Video := mkVideo (currentTimeMs v) true.
Definition play (v : Video) : Video := mkVideo (currentTimeMs v) false.

(** ** State of the play page *)

Module EditedTime.
Record t := mk { startTime : Z; endTime : Z }.
End EditedTime.

(** The React state, the [isSeeking] ref and the media element of
    [PlayPage], with the store its references point into.  The settings
    that no handler below reads (playback speed, blur, quiz mode, the
    modal) are left out. *)
Record State := mkState {
  store : Store;
  subtitle : option loc;
  currentSubtitleIndex : Z;
  playMode : PlayMode;
  isPlaying : bool;
  editMode : bool;
  editedTime : EditedTime.t;
  editedText : jsstring;
  isSeeking : bool;
  recordingMode : bool;
  videoRef : option Video
}.

Definition setStore (x : Store) (s : State) : State :=
  mkState x (subtitle s) (currentSubtitleIndex s) (playMode s) (isPlaying s)
    (editMode s) (editedTime s) (editedText s) (isSeeking s) (recordingMode s)
    (videoRef s).
Definition setSubtitle (x : loc) (s : State) : State :=
  mkState (store s) (Some x) (currentSubtitleIndex s) (playMode s) (isPlaying s)
    (editMode s) (editedTime s) (editedText s) (isSeeking s) (recordingMode s)
    (videoRef s).
Definition setCurrentSubtitleIndex (x : Z) (s : State) : State :=
  mkState (store s) (subtitle s) x (playMode s) (isPlaying s)
    (editMode s) (editedTime s) (editedText s) (isSeeking s) (recordingMode s)
    (videoRef s).
Definition setPlayMode (x : PlayMode) (s : State) : State :=
  mkState (store s) (subtitle s) (currentSubtitleIndex s) x (isPlaying s)
    (editMode s) (editedTime s) (editedText s) (isSeeking s) (recordingMode s)
    (videoRef s).
Definition setIsPlaying (x : bool) (s : State) : State :=
  mkState (store s) (subtitle s) (currentSubtitleIndex s) (playMode s) x
    (editMode s) (editedTime s) (editedText s) (isSeeking s) (recordingMode s)
    (videoRef s).
Definition setEditMode (x : bool) (s : State) : State :=
  mkState (store s) (subtitle s) (currentSubtitleIndex s) (playMode s) (isPlaying s)
    x (editedTime s) (editedText s) (isSeeking s) (recordingMode s)
    (videoRef s).
Definition setEditedTime (x : EditedTime.t) (s : State) : State :=
  mkState (store s) (subtitle s) (currentSubtitleIndex s) (playMode s) (isPlaying s)
    (editMode s) x (editedText s) (isSeeking s) (recordingMode s)
    (videoRef s).
Definition setEditedText (x : jsstring) (s : State) : State :=
  mkState (store s) (subtitle s) (currentSubtitleIndex s) (playMode s) (isPlaying s)
    (editMode s) (editedTime s) x (isSeeking s) (recordingMode s)
    (videoRef s).
Definition setIsSeeking (x : bool) (s : State) : State :=
  mkState (store s) (subtitle s) (currentSubtitleIndex s) (playMode s) (isPlaying s)
    (editMode s) (editedTime s) (editedText s) x (recordingMode s)
    (videoRef s).
Definition setRecordingMode (x : bool) (s : State) : State :=
  mkState (store s) (subtitle s) (currentSubtitleIndex s) (playMode s) (isPlaying s)
    (editMode s) (editedTime s) (editedText s) (isSeeking s) x
    (videoRef s).
Definition setVideo (x : Video) (s : State) : State :=
  mkState (store s) (subtitle s) (currentSubtitleIndex s) (playMode s) (isPlaying s)
    (editMode s) (editedTime s) (editedText s) (isSeeking s) (recordingMode s)
    (Some x).

(** ** Strings: [String.prototype.trim] *)

(** The code units that [trim] strips: ECMAScript's WhiteSpace and
    LineTerminator, all of them in the Basic Multilingual Plane. *)
Definition isWhiteSpace (c : N) : bool :=
  ((c =? 0x0009) || (c =? 0x000A) || (c =? 0x000B) || (c =? 0x000C)
   || (c =? 0x000D) || (c =? 0x0020) || (c =? 0x00A0) || (c =? 0x1680)
   || ((0x2000 <=? c) && (c <=? 0x200A)) || (c =? 0x2028) || (c =? 0x2029)
   || (c =? 0x202F) || (c =? 0x205F) || (c =? 0x3000) || (c =? 0xFEFF))%N.

Fixpoint trimStart (s : jsstring) : jsstring :=
  match s with
  | [] => []
  | c :: r => if isWhiteSpace c then trimStart r else s
  end.

Definition trimEnd (s : jsstring) : jsstring := rev (trimStart (rev s)).

Definition trim (s : jsstring) : jsstring := trimEnd (trimStart s).

(** ** What a handler sends out of the page *)

(** A deep copy of a subtitle object, as the database receives it. *)
Record Snapshot := mkSnapshot {
  header : Subtitle;
  content : list SubtitleEntry
}.

Inductive Effect :=
| message_warning_emptyText
| message_success_saved
| message_error_saveFailed
| MediaDatabaseService_updateSubtitle (o : option Snapshot).

Definition snapshot (σ : Store) (subtitle : loc) : option Snapshot :=
  o ← subtitleObjs σ !! subtitle;
  es ← entriesOf σ subtitle;
  Some (mkSnapshot o es).

(** Outcome of a handler that may raise after it has written: the state
    it leaves behind, reached by returning or by raising. *)
Inductive Outcome :=
| Done (s : State)
| Raised (s : State).

Definition after (o : Outcome) : State :=
  match o with
  | Done s => s
  | Raised s => s
  end.

(** ** The play page, first variant (PlayPage.tsx, lines 1-834) *)

Module PlayPage.

(** [checkPlayMode(shouldSeekToStart)]: the answer (may the caller update
    [currentSubtitleIndex]?) and the state it leaves.  In every branch the
    properties of [currentEntry] are read before the first assignment, so
    a [Throw] leaves the state as it was.  [editedTime] is always an
    object with two numbers, so [editedTime?.startTime !== undefined]
    holds and the edit branch reduces to the test of [editMode]. *)
Definition checkPlayMode (shouldSeekToStart : bool) (s : State)
  : Completion (bool * State) :=
  match subtitle s, videoRef s with
  | Some sub, Some video =>
      if decide (currentSubtitleIndex s = -1) then Normal (true, s)
      else if isSeeking s then Normal (true, s)
      else
        let currentTimeMs := currentTimeMs video in
        let currentEntry := entryAt (store s) sub (currentSubtitleIndex s) in
        if editMode s || recordingMode s then
          preciseStartTime ←
            (if editMode s then Normal (EditedTime.startTime (editedTime s))
             else prop preciseStartTime currentEntry);
          preciseEndTime ←
            (if editMode s then Normal (EditedTime.endTime (editedTime s))
             else prop preciseEndTime currentEntry);
          let video := if shouldSeekToStart then seek preciseStartTime video
                       else video in
          let video := if preciseEndTime <=? currentTimeMs then pause video
                       else video in
          Normal (false, setVideo video s)
        else
          match playMode s with
          | SINGLE_PAUSE =>
              video ← (if shouldSeekToStart
                       then start ← prop preciseStartTime currentEntry;
                            Normal (seek start video)
                       else Normal video);
              preciseEndTime ← prop preciseEndTime currentEntry;
              let video := if preciseEndTime <=? currentTimeMs then pause video
                           else video in
              Normal (false, setVideo video s)
          | SINGLE_LOOP =>
              preciseEndTime ← prop preciseEndTime currentEntry;
              video ← (if preciseEndTime <=? currentTimeMs
                       then start ← prop preciseStartTime currentEntry;
                            Normal (seek start video)
                       else Normal video);
              Normal (false, setVideo video s)
          | CONTINUOUS_PLAY => Normal (true, s)
          end
  | _, _ => Normal (true, s)
  end.

(** [handleTimeUpdate], the handler of the media element's [timeupdate].
    The [|| 0] of the source replaces a [NaN] time only. *)
Definition handleTimeUpdate (s : State) : Completion State :=
  match subtitle s with
  | None => Normal s
  | Some sub =>
      currentTimeMs ← prop currentTimeMs (videoRef s);
      '(update, s) ← checkPlayMode false s;
      if negb update then Normal s
      else
        es ← prop (fun x => x) (entriesOf (store s) sub);
        let index := Resolver.findIndex (Resolver.contains currentTimeMs) es in
        if decide (index ≠ -1)
        then Normal (setIsSeeking false (setCurrentSubtitleIndex index s))
        else Normal s
  end.

Definition handleSeeking (s : State) : State := setIsSeeking true s.

Definition handleSeeked (s : State) : State := setIsSeeking true s.

(** [handleTogglePlayPause]. *)
Definition handleTogglePlayPause (s : State) : Completion State :=
  match videoRef s with
  | None => Normal s
  | Some video =>
      if isPlaying s then Normal (setVideo (pause video) s)
      else
        '(_, s) ← checkPlayMode true s;
        video ← prop (fun x => x) (videoRef s);
        Normal (setVideo (play video) s)
  end.

(** [handleEnterEditMode(subtitleIndex)]. *)
Definition handleEnterEditMode (subtitleIndex : Z) (s : State) : Completion State :=
  match subtitle s, videoRef s with
  | Some sub, Some video =>
      if decide (subtitleIndex = -1) then Normal s
      else
        let targetEntry := entryAt (store s) sub subtitleIndex in
        start ← prop preciseStartTime targetEntry;
        end_ ← prop preciseEndTime targetEntry;
        let s := setEditedTime (EditedTime.mk start end_) s in
        text ← prop text targetEntry;
        let s := setEditedText text s in
        start ← prop startTime targetEntry;
        let s := setVideo (pause (seek start video)) s in
        Normal (setEditMode true (setCurrentSubtitleIndex subtitleIndex s))
  | _, _ => Normal s
  end.

(** [handleExitEditMode]. *)
Definition handleExitEditMode (s : State) : State :=
  setEditedText [] (setEditedTime (EditedTime.mk 0 0) (setEditMode false s)).

(** [handleTimeOffset(offset, isStartTime, isForward)]: the updater given
    to [setEditedTime], applied to the buffered value. *)
Definition handleTimeOffset (offset : Z) (isStartTime isForward : bool)
  (s : State) : State :=
  let prev := editedTime s in
  let newTime := if isStartTime then EditedTime.startTime prev
                 else EditedTime.endTime prev in
  let newOffset := if isForward then newTime + offset else newTime - offset in
  setEditedTime
    (if isStartTime then EditedTime.mk newOffset (EditedTime.endTime prev)
     else EditedTime.mk (EditedTime.startTime prev) newOffset) s.

(** [setEditedText], the popup's [onTextChange]. *)
Definition handleTextChange (text : jsstring) (s : State) : State :=
  setEditedText text s.

(** How far [handleSaveSubtitleEdit] went when it gave up control. *)
Inductive SaveStage :=
| Returned
| Awaiting (updatedSubtitle : loc).

(** [handleSaveSubtitleEdit] up to its [await]: the state, what was sent
    out, and whether the handler now waits for the database.  A
    [TypeError] inside the [try] block lands in its [catch].  The tests
    [!editedTime] and [editedTime.startTime !== null] of the source are
    decided by the type of [editedTime] (an object with two numbers), so
    the three assignments to [currentEntry] are unconditional.  The
    database receives the object as it is at the call. *)
Definition handleSaveSubtitleEdit (s : State) : State * list Effect * SaveStage :=
  match subtitle s with
  | None => (s, [], Returned)
  | Some sub =>
      if decide (currentSubtitleIndex s = -1) then (s, [], Returned)
      else
        let trimmedText := trim (editedText s) in
        if decide (trimmedText = []) then (s, [message_warning_emptyText], Returned)
        else
          match spread sub (store s) with
          | None => (s, [message_error_saveFailed], Returned)
          | Some (updatedSubtitle, σ) =>
              let s := setStore σ s in
              match entryRefAt σ updatedSubtitle (currentSubtitleIndex s) with
              | None => (s, [message_error_saveFailed], Returned)
              | Some currentEntry =>
                  let σ := updateEntry currentEntry (fun e =>
                    mkEntry (index e) (startTime e) (endTime e)
                      (EditedTime.startTime (editedTime s)) (preciseEndTime e)
                      (text e)) σ in
                  let σ := updateEntry currentEntry (fun e =>
                    mkEntry (index e) (startTime e) (endTime e)
                      (preciseStartTime e) (EditedTime.endTime (editedTime s))
                      (text e)) σ in
                  let σ := updateEntry currentEntry (fun e =>
                    mkEntry (index e) (startTime e) (endTime e)
                      (preciseStartTime e) (preciseEndTime e) trimmedText) σ in
                  (setStore σ s,
                   [MediaDatabaseService_updateSubtitle (snapshot σ updatedSubtitle)],
                   Awaiting updatedSubtitle)
              end
          end
  end.

(** The rest of [handleSaveSubtitleEdit], run when the database answers:
    after the [await] when the write succeeded, the [catch] block when it
    failed. *)
Definition handleSaveSubtitleEdit_resume (updatedSubtitle : loc)
  (succeeded : bool) (s : State) : State * list Effect :=
  if succeeded
  then (handleExitEditMode (setSubtitle updatedSubtitle s), [message_success_saved])
  else (s, [message_error_saveFailed]).

(** A playback-time advance: the media clock moves to [t] and the element
    fires [timeupdate].  A handler that raises leaves the state of the
    event's start. *)
Definition settle (s : State) (c : Completion State) : State :=
  match c with
  | Normal s' => s'
  | Throw => s
  end.

Definition clock (t : Z) (s : State) : State :=
  match videoRef s with
  | Some video => setVideo (seek t video) s
  | None => s
  end.

Definition tick (t : Z) (s : State) : State :=
  settle (clock t s) (handleTimeUpdate (clock t s)).

Definition ticks (ts : list Z) (s : State) : State :=
  foldl (fun s t => tick t s) s ts.

(** The end of a skip or of a click on a row, from the read of the target
    entry on: [entries[target]], the reset of [isSeeking] (skips only),
    the seek to the entry's [startTime], [play()].  The index was set
    before, so a raise keeps it. *)
Definition jump (resetSeeking : bool) (sub : loc) (target : Z) (video : Video)
  (s : State) : Outcome :=
  let entry := entryAt (store s) sub target in
  let s := if resetSeeking then setIsSeeking false s else s in
  match entry with
  | None => Raised s
  | Some e => Done (setVideo (play (seek (startTime e) video)) s)
  end.

(** [handlePreviousSubtitle]: the callback it hands to
    [requestAnimationFrame].  [closure] is the state of the render that
    created the handler, from which the callback takes [subtitle] and
    [currentSubtitleIndex]; the refs, the media element, the store and
    the functional update [prev => prev - 1] are those of the state [s]
    in which the frame runs. *)
Definition handlePreviousSubtitle (closure s : State) : Outcome :=
  match videoRef s, subtitle closure with
  | Some video, Some sub =>
      if isSeeking s then
        match entriesOf (store s) sub with
        | None => Raised s
        | Some es =>
            match Resolver.findSubtitleIndexByTime es (currentTimeMs video) previous with
            | Throw => Raised s
            | Normal prevIndex =>
                if decide (prevIndex = -1) then Done s
                else jump true sub prevIndex video (setCurrentSubtitleIndex prevIndex s)
            end
        end
      else if decide (currentSubtitleIndex closure < 1) then Done s
      else jump true sub (currentSubtitleIndex closure - 1) video
             (setCurrentSubtitleIndex (currentSubtitleIndex s - 1) s)
  | _, _ => Done s
  end.

(** [handleNextSubtitle], in the same way. *)
Definition handleNextSubtitle (closure s : State) : Outcome :=
  match videoRef s, subtitle closure with
  | Some video, Some sub =>
      if isSeeking s then
        match entriesOf (store s) sub with
        | None => Raised s
        | Some es =>
            match Resolver.findSubtitleIndexByTime es (currentTimeMs video) next with
            | Throw => Raised s
            | Normal nextIndex =>
                if decide (nextIndex = -1) then Done s
                else jump true sub nextIndex video (setCurrentSubtitleIndex nextIndex s)
            end
        end
      else
        match entryRefs (store s) sub with
        | None => Raised s
        | Some refs =>
            if decide (currentSubtitleIndex closure = Z.of_nat (length refs) - 1)
            then Done s
            else jump true sub (currentSubtitleIndex closure + 1) video
                   (setCurrentSubtitleIndex (currentSubtitleIndex s + 1) s)
        end
  | _, _ => Done s
  end.

(** [handleSubtitleClick(subtitleIndex)], the frame callback again. *)
Definition handleSubtitleClick (subtitleIndex : Z) (closure s : State) : Outcome :=
  match videoRef s, subtitle closure with
  | Some video, Some sub =>
      if decide (subtitleIndex = -1) then Done s
      else jump false sub subtitleIndex video
             (setCurrentSubtitleIndex subtitleIndex s)
  | _, _ => Done s
  end.

(** [handleLoadedMetadata], with the [savedSubtitleIndex] that
    [useMediaInit] answered.  The playback rate it applies first is not
    part of the model. *)
Definition handleLoadedMetadata (savedSubtitleIndex : Z) (s : State)
  : Completion State :=
  match videoRef s, subtitle s with
  | Some video, Some sub =>
      if decide (savedSubtitleIndex < 0) then Normal s
      else if decide (currentSubtitleIndex s ≠ -1) then Normal s
      else
        start ← prop startTime (entryAt (store s) sub savedSubtitleIndex);
        Normal (setCurrentSubtitleIndex savedSubtitleIndex
                  (setVideo (seek start video) s))
  | _, _ => Normal s
  end.

(** [handleEnterRecordingMode(subtitleIndex)]. *)
Definition handleEnterRecordingMode (subtitleIndex : Z) (s : State)
  : Completion State :=
  match subtitle s, videoRef s with
  | Some sub, Some video =>
      if decide (subtitleIndex = -1) then Normal s
      else
        start ← prop startTime (entryAt (store s) sub subtitleIndex);
        let s := setVideo (pause (seek start video)) s in
        Normal (setRecordingMode true (setCurrentSubtitleIndex subtitleIndex s))
  | _, _ => Normal s
  end.

(** [handleExitRecordingMode]. *)
Definition handleExitRecordingMode (s : State) : State := setRecordingMode false s.

(** The [onPlay] and [onPause] props of the media element. *)
Definition onPlay (s : State) : State := setIsPlaying true s.
Definition onPause (s : State) : State := setIsPlaying false s.

End PlayPage.

(** ** The play page, second variant (PlayPage.tsx, lines 836-1524)

    Only the handlers that differ from the first variant and that gate
    the index are given; [handleTimeOffset], [handleEnterEditMode],
    [handleExitEditMode] and [handleSaveSubtitleEdit] have the same text
    in both. *)

Module PlayPage2.

(** [checkPlayMode]: as in the first variant, without the test of
    [isSeeking]. *)
Definition checkPlayMode (shouldSeekToStart : bool) (s : State)
  : Completion (bool * State) :=
  match subtitle s, videoRef s with
  | Some sub, Some video =>
      if decide (currentSubtitleIndex s = -1) then Normal (true, s)
      else
        let currentTimeMs := currentTimeMs video in
        let currentEntry := entryAt (store s) sub (currentSubtitleIndex s) in
        if editMode s || recordingMode s then
          preciseStartTime ←
            (if editMode s then Normal (EditedTime.startTime (editedTime s))
             else prop preciseStartTime currentEntry);
          preciseEndTime ←
            (if editMode s then Normal (EditedTime.endTime (editedTime s))
             else prop preciseEndTime currentEntry);
          let video := if shouldSeekToStart then seek preciseStartTime video
                       else video in
          let video := if preciseEndTime <=? currentTimeMs then pause video
                       else video in
          Normal (false, setVideo video s)
        else
          match playMode s with
          | SINGLE_PAUSE =>
              video ← (if shouldSeekToStart
                       then start ← prop preciseStartTime currentEntry;
                            Normal (seek start video)
                       else Normal video);
              preciseEndTime ← prop preciseEndTime currentEntry;
              let video := if preciseEndTime <=? currentTimeMs then pause video
                           else video in
              Normal (false, setVideo video s)
          | SINGLE_LOOP =>
              preciseEndTime ← prop preciseEndTime currentEntry;
              video ← (if preciseEndTime <=? currentTimeMs
                       then start ← prop preciseStartTime currentEntry;
                            Normal (seek start video)
                       else Normal video);
              Normal (false, setVideo video s)
          | CONTINUOUS_PLAY => Normal (true, s)
          end
  | _, _ => Normal (true, s)
  end.

(** [handleTimeUpdate]: returns at once while [isSeeking] is set, and
    never writes the flag. *)
Definition handleTimeUpdate (s : State) : Completion State :=
  if isSeeking s then Normal s
  else
    match subtitle s with
    | None => Normal s
    | Some sub =>
        currentTimeMs ← prop currentTimeMs (videoRef s);
        '(update, s) ← checkPlayMode false s;
        if negb update then Normal s
        else
          es ← prop (fun x => x) (entriesOf (store s) sub);
          let index := Resolver.findIndex (Resolver.contains currentTimeMs) es in
          if decide (index ≠ -1)
          then Normal (setCurrentSubtitleIndex index s)
          else Normal s
    end.

Definition handleSeeking (s : State) : State := setIsSeeking true s.

Definition handleSeeked (s : State) : State := setIsSeeking false s.

Definition tick (t : Z) (s : State) : State :=
  PlayPage.settle (PlayPage.clock t s) (handleTimeUpdate (PlayPage.clock t s)).

(** [handlePreviousSubtitle]: index arithmetic only; the target entry is
    read before the index is set, its [startTime] after. *)
Definition handlePreviousSubtitle (closure s : State) : Outcome :=
  match videoRef s, subtitle closure with
  | Some video, Some sub =>
      if decide (currentSubtitleIndex closure < 1) then Done s
      else
        let previousEntry :=
          entryAt (store s) sub (currentSubtitleIndex closure - 1) in
        let s := setCurrentSubtitleIndex (currentSubtitleIndex s - 1) s in
        match previousEntry with
        | None => Raised s
        | Some e => Done (setVideo (play (seek (startTime e) video)) s)
        end
  | _, _ => Done s
  end.

(** [handleNextSubtitle]. *)
Definition handleNextSubtitle (closure s : State) : Outcome :=
  match videoRef s, subtitle closure with
  | Some video, Some sub =>
      match entryRefs (store s) sub with
      | None => Raised s
      | Some refs =>
          if decide (currentSubtitleIndex closure = Z.of_nat (length refs) - 1)
          then Done s
          else
            let nextEntry :=
              entryAt (store s) sub (currentSubtitleIndex closure + 1) in
            let s := setCurrentSubtitleIndex (currentSubtitleIndex s + 1) s in
            match nextEntry with
            | None => Raised s
            | Some e => Done (setVideo (play (seek (startTime e) video)) s)
            end
      end
  | _, _ => Done s
  end.

(** [handleTogglePlayPause], on this variant's [checkPlayMode]. *)
Definition handleTogglePlayPause (s : State) : Completion State :=
  match videoRef s with
  | None => Normal s
  | Some video =>
      if isPlaying s then Normal (setVideo (pause video) s)
      else
        '(_, s) ← checkPlayMode true s;
        video ← prop (fun x => x) (videoRef s);
        Normal (setVideo (play video) s)
  end.

End PlayPage2.

(** ** The progress-persisting hook (useSubtitleIndexPersist.ts) *)

Module SubtitleIndexPersist.

(** The quiet period handed to [debounce]. *)
Definition wait : Z := 500.

(** The hook's instance between two events.  [mediaId] stands for
    [Number(mediaId)].
    - [timer]: the pending call of the debounced function, with the time
      left before it runs and its arguments.  lodash's [debounce(f, wait)]
      (trailing edge, the default) restarts the timer at every call and
      keeps the arguments of the last one; [cancel()] drops the pending
      call.
    - [cleanup]: the cleanup function returned by the last run of the
      effect, as the pair [(mediaId, currentSubtitleIndex)] it closed
      over; [None] when that run returned nothing.
    - [deps]: the dependency array of the last render.
    - [writes]: the calls of [MediaDatabaseService.updateSubtitleIndex]
      made so far, oldest first. *)
Record Hook := mkHook {
  isFirstRender : bool;
  timer : option (Z * (Z * Z));
  cleanup : option (Z * Z);
  deps : Z * Z;
  writes : list (Z * Z)
}.

(** [debouncedSave(id, index)]. *)
Definition debouncedSave (args : Z * Z) (h : Hook) : Hook :=
  mkHook (isFirstRender h) (Some (wait, args)) (cleanup h) (deps h) (writes h).

(** [debouncedSave.cancel()]. *)
Definition cancel (h : Hook) : Hook :=
  mkHook (isFirstRender h) None (cleanup h) (deps h) (writes h).

(** [MediaDatabaseService.updateSubtitleIndex(id, index)]. *)
Definition updateSubtitleIndex (args : Z * Z) (h : Hook) : Hook :=
  mkHook (isFirstRender h) (timer h) (cleanup h) (deps h) (writes h ++ [args]).

(** The body of the effect, run with the dependencies [d] of the render. *)
Definition effect (d : Z * Z) (h : Hook) : Hook :=
  if isFirstRender h
  then mkHook false (timer h) None d (writes h)
  else
    let h := debouncedSave d h in
    mkHook (isFirstRender h) (timer h) (Some d) d (writes h).

(** The cleanup function returned by the effect, if it returned one. *)
Definition runCleanup (h : Hook) : Hook :=
  match cleanup h with
  | None => h
  | Some d => updateSubtitleIndex d (cancel h)
  end.

(** The first render. *)
Definition mount (mediaId currentSubtitleIndex : Z) : Hook :=
  effect (mediaId, currentSubtitleIndex)
    (mkHook true None None (mediaId, currentSubtitleIndex) []).

Inductive Event :=
| render (mediaId currentSubtitleIndex : Z)
| elapse (ms : Z)
| unmount.

(** React runs the cleanup of the previous effect and then the effect
    when a render changes a dependency, and only the cleanup when the
    component unmounts; a timer runs its callback once its delay has
    passed. *)
Definition step (h : Hook) (e : Event) : Hook :=
  match e with
  | render mediaId currentSubtitleIndex =>
      let d := (mediaId, currentSubtitleIndex) in
      if decide (d = deps h) then h else effect d (runCleanup h)
  | elapse ms =>
      match timer h with
      | Some (left_, args) =>
          if left_ <=? ms
          then updateSubtitleIndex args (cancel h)
          else mkHook (isFirstRender h) (Some (left_ - ms, args)) (cleanup h)
                 (deps h) (writes h)
      | None => h
      end
  | unmount => runCleanup h
  end.

Definition run (h : Hook) (es : list Event) : Hook := foldl step h es.

(** A burst: index changes of one medium, each followed by a pause. *)
Definition burst (mediaId : Z) (changes : list (Z * Z)) : list Event :=
  flat_map (fun c => [render mediaId (fst c); elapse (snd c)]) changes.

End SubtitleIndexPersist.

(** ** The page as a whole: events of a session (first variant) *)

Module Session.

(** The page and the Saves that wait for the database, each with the
    subtitle object it will install. *)
Record Config := mkConfig {
  page : State;
  awaiting : list loc
}.

Inductive Event :=
| timeupdate (t : Z)
| seeking
| seeked
| played
| paused_
| loadedmetadata (savedSubtitleIndex : Z)
| previousSubtitle
| nextSubtitle
| subtitleClick (subtitleIndex : Z)
| togglePlayPause
| playModeChange (mode : PlayMode)
| enterEditMode (subtitleIndex : Z)
| exitEditMode
| timeOffset (offset : Z) (isStartTime isForward : bool)
| textChange (text : jsstring)
| saveSubtitleEdit
| databaseAnswer (k : nat) (succeeded : bool)
| enterRecordingMode (subtitleIndex : Z)
| exitRecordingMode.

(** A handler that raises only before its first write. *)
Definition ofCompletion (s : State) (c : Completion State) : Outcome :=
  match c with
  | Normal s' => Done s'
  | Throw => Raised s
  end.

(** The handler of an event, run on the latest render, and the Saves that
    wait after it.  [databaseAnswer k ok] is the answer of the database
    to the [k]-th waiting Save. *)
Definition handle (e : Event) (c : Config) : Outcome * list loc :=
  let s := page c in
  match e with
  | timeupdate t =>
      (ofCompletion (PlayPage.clock t s) (PlayPage.handleTimeUpdate (PlayPage.clock t s)),
       awaiting c)
  | seeking => (Done (PlayPage.handleSeeking s), awaiting c)
  | seeked => (Done (PlayPage.handleSeeked s), awaiting c)
  | played => (Done (PlayPage.onPlay s), awaiting c)
  | paused_ => (Done (PlayPage.onPause s), awaiting c)
  | loadedmetadata saved =>
      (ofCompletion s (PlayPage.handleLoadedMetadata saved s), awaiting c)
  | previousSubtitle => (PlayPage.handlePreviousSubtitle s s, awaiting c)
  | nextSubtitle => (PlayPage.handleNextSubtitle s s, awaiting c)
  | subtitleClick i => (PlayPage.handleSubtitleClick i s s, awaiting c)
  | togglePlayPause => (ofCompletion s (PlayPage.handleTogglePlayPause s), awaiting c)
  | playModeChange mode => (Done (setPlayMode mode s), awaiting c)
  | enterEditMode i => (ofCompletion s (PlayPage.handleEnterEditMode i s), awaiting c)
  | exitEditMode => (Done (PlayPage.handleExitEditMode s), awaiting c)
  | timeOffset offset isStartTime isForward =>
      (Done (PlayPage.handleTimeOffset offset isStartTime isForward s), awaiting c)
  | textChange text => (Done (PlayPage.handleTextChange text s), awaiting c)
  | saveSubtitleEdit =>
      let r := PlayPage.handleSaveSubtitleEdit s in
      (Done r.1.1,
       match r.2 with
       | PlayPage.Awaiting updatedSubtitle => awaiting c ++ [updatedSubtitle]
       | PlayPage.Returned => awaiting c
       end)
  | databaseAnswer k succeeded =>
      match awaiting c !! k with
      | Some updatedSubtitle =>
          (Done (PlayPage.handleSaveSubtitleEdit_resume updatedSubtitle succeeded s).1,
           delete k (awaiting c))
      | None => (Done s, awaiting c)
      end
  | enterRecordingMode i =>
      (ofCompletion s (PlayPage.handleEnterRecordingMode i s), awaiting c)
  | exitRecordingMode => (Done (PlayPage.handleExitRecordingMode s), awaiting c)
  end.

Definition step (c : Config) (e : Event) : Config :=
  mkConfig (after (handle e c).1) (handle e c).2.

Definition raises (e : Event) (c : Config) : bool :=
  match (handle e c).1 with
  | Raised _ => true
  | Done _ => false
  end.

Definition run (c : Config) (es : list Event) : Config := foldl step c es.

(** No handler raises along the events [es]. *)
Fixpoint quiet (c : Config) (es : list Event) : bool :=
  match es with
  | [] => true
  | e :: rest => negb (raises e c) && quiet (step c e) rest
  end.

End Session.

(** ** The subtitle list: following the current entry

    The [SubtitleList] component with the manual-scroll mode
    (src/unnamed/part_003, lines 139-252; the same text in
    src/unnamed/part_002, lines 356-467).  Its [subtitle] prop is always
    there, so the test [!subtitle] of the effect is decided. *)

Module SubtitleList.

(** The refs and the state of the list between two events, with the
    [currentIndex] of the latest render.
    - [listRef]: whether [listRef.current] is set.
    - [frame]: the animation frame requested by the last run of the
      effect and not yet run or cancelled, with the index it closed over.
    - [scrolled]: the calls of [scrollToRow] so far, oldest first. *)
Record List := mkList {
  currentIndex : Z;
  isSubtitleIndexChanged : bool;
  isManualScroll : bool;
  showScrollToCurrentButton : bool;
  listRef : bool;
  frame : option Z;
  scrolled : list Z
}.

(** The effect that scrolls to the current subtitle, run for the index
    of the render. *)
Definition effect (l : List) : List :=
  if negb (listRef l) then l
  else if isManualScroll l then l
  else
    mkList (currentIndex l) (isSubtitleIndexChanged l) (isManualScroll l) false
      (listRef l)
      (if decide (currentIndex l ≠ -1) then Some (currentIndex l) else None)
      (scrolled l).

(** The cleanup of the effect: [cancelAnimationFrame(rafId)]. *)
Definition cancelFrame (l : List) : List :=
  mkList (currentIndex l) (isSubtitleIndexChanged l) (isManualScroll l)
    (showScrollToCurrentButton l) (listRef l) None (scrolled l).

(** The callback of the animation frame. *)
Definition runFrame (l : List) : List :=
  match frame l with
  | None => l
  | Some i =>
      mkList (currentIndex l) true (isManualScroll l)
        (showScrollToCurrentButton l) (listRef l) None
        (if listRef l then scrolled l ++ [i] else scrolled l)
  end.

(** [handleScroll], the list's [onScroll]. *)
Definition handleScroll (l : List) : List :=
  if isSubtitleIndexChanged l
  then mkList (currentIndex l) false (isManualScroll l)
         (showScrollToCurrentButton l) (listRef l) (frame l) (scrolled l)
  else mkList (currentIndex l) false true true (listRef l) (frame l) (scrolled l).

(** [handleScrollToCurrent], the click on the floating button. *)
Definition handleScrollToCurrent (l : List) : List :=
  if bool_decide (currentIndex l ≠ -1) && listRef l
  then mkList (currentIndex l) true false false (listRef l) (frame l)
         (scrolled l ++ [currentIndex l])
  else mkList (currentIndex l) (isSubtitleIndexChanged l) false false (listRef l)
         (frame l) (scrolled l).

(** The list as mounted, showing [i]: the effect has run once. *)
Definition mount (ready : bool) (i : Z) : List :=
  effect (mkList i false false false ready None []).

Inductive Event :=
| indexChange (i : Z)
| subtitleChange
| animationFrame
| scroll
| scrollToCurrent.

(** A render with another [currentIndex] or another [subtitle] runs the
    cleanup of the last run of the effect (a pending frame is always of
    that run) and then the effect; a render with the same index runs
    neither. *)
Definition step (l : List) (e : Event) : List :=
  match e with
  | indexChange i =>
      if decide (i = currentIndex l) then l
      else
        let l := cancelFrame l in
        effect (mkList i (isSubtitleIndexChanged l) (isManualScroll l)
                  (showScrollToCurrentButton l) (listRef l) (frame l) (scrolled l))
  | subtitleChange => effect (cancelFrame l)
  | animationFrame => runFrame l
  | scroll => handleScroll l
  | scrollToCurrent => handleScrollToCurrent l
  end.

Definition run (l : List) (es : list Event) : List := foldl step l es.

End SubtitleList.

(** ** Vocabulary of the properties *)

(** The track is sorted ascending by [startTime]. *)
Definition sortedByStart (entries : list SubtitleEntry) : Prop :=
  forall i j a b, i <= j -> item entries i = Some a -> item entries j = Some b ->
    startTime a <= startTime b.

(** Entry [i] exists and [t] lies in its half-open display interval. *)
Definition covers (entries : list SubtitleEntry) (t i : Z) : Prop :=
  exists e, item entries i = Some e /\ startTime e <= t < endTime e.

(** [i] is the only index whose entry covers [t]. *)
Definition uniqueCover (entries : list SubtitleEntry) (t i : Z) : Prop :=
  covers entries t i /\ forall j, covers entries t j -> j = i.

(** [i] is the first index whose entry covers [t]. *)
Definition firstCover (entries : list SubtitleEntry) (t i : Z) : Prop :=
  covers entries t i /\ forall j, covers entries t j -> i <= j.

(** No two entries overlap: an entry ends before any later one starts. *)
Definition disjoint (entries : list SubtitleEntry) : Prop :=
  forall i j a b, i < j -> item entries i = Some a -> item entries j = Some b ->
    endTime a <= startTime b.

(** A string of white space only. *)
Definition blank (s : jsstring) : Prop := Forall (fun c => isWhiteSpace c = true) s.

(** [r] is the least index with [startTime > t], [-1] when there is none. *)
Definition leastAfter (entries : list SubtitleEntry) (t r : Z) : Prop :=
  (r = -1 /\ forall j e, item entries j = Some e -> startTime e <= t)
  \/ (exists e, item entries r = Some e /\ t < startTime e
      /\ forall j e', item entries j = Some e' -> t < startTime e' -> r <= j).

(** [r] is the greatest index with [startTime < t], [-1] when there is
    none. *)
Definition greatestBefore (entries : list SubtitleEntry) (t r : Z) : Prop :=
  (r = -1 /\ forall j e, item entries j = Some e -> t <= startTime e)
  \/ (exists e, item entries r = Some e /\ startTime e < t
      /\ forall j e', item entries j = Some e' -> startTime e' < t -> j <= r).

(** The entry [e] lies in the direction [d] of the time [t], judged by
    its [startTime]. *)
Definition toward (d : Direction) (t : Z) (e : SubtitleEntry) : Prop :=
  match d with
  | next => t < startTime e
  | previous => startTime e < t
  end.

(** The page shows a loaded track whose entries array is [refs]: the
    subtitle object in use and those that waiting Saves will install
    share that array, every reference of it is an entry object, the
    media element is there, and [currentSubtitleIndex] is -1 or an index
    of the array. *)
Definition sound (refs : list loc) (c : Session.Config) : Prop :=
  let s := Session.page c in
  (exists sub, subtitle s = Some sub /\ entryRefs (store s) sub = Some refs)
  /\ (forall new, new ∈ Session.awaiting c -> entryRefs (store s) new = Some refs)
  /\ (forall r, r ∈ refs -> is_Some (entryObjs (store s) !! r))
  /\ is_Some (videoRef s)
  /\ -1 <= currentSubtitleIndex s < Z.of_nat (length refs).

(** The indices that an event carries are rows of a list of [n] entries
    (a click, an edit or a record-along request come from a row), and the
    saved index is below [n]. *)
Definition inTrack (n : Z) (e : Session.Event) : Prop :=
  match e with
  | Session.subtitleClick i => 0 <= i < n
  | Session.enterEditMode i => 0 <= i < n
  | Session.enterRecordingMode i => 0 <= i < n
  | Session.loadedmetadata saved => saved < n
  | _ => True
  end.

(** The dependencies of the last render among the hook's events [es],
    [d] when there is none. *)
Definition latest (d : Z * Z) (es : list SubtitleIndexPersist.Event) : Z * Z :=
  foldl (fun d e =>
           match e with
           | SubtitleIndexPersist.render m i => (m, i)
           | _ => d
           end) d es.

(** The event is not the unmount. *)
Definition mounted (e : SubtitleIndexPersist.Event) : Prop :=
  e <> SubtitleIndexPersist.unmount.

(** The event is a render with other dependencies than [d]. *)
Definition changes (d : Z * Z) (e : SubtitleIndexPersist.Event) : Prop :=
  exists m i, e = SubtitleIndexPersist.render m i /\ (m, i) <> d.

(** The number of renders among the events. *)
Fixpoint renders (es : list SubtitleIndexPersist.Event) : nat :=
  match es with
  | [] => 0
  | SubtitleIndexPersist.render _ _ :: rest => S (renders rest)
  | _ :: rest => renders rest
  end.

(** Each index of [js] differs from the one before it, the first from
    [i]: every one of them is a change. *)
Fixpoint successive (i : Z) (js : list Z) : Prop :=
  match js with
  | [] => True
  | j :: rest => j <> i /\ successive j rest
  end.

(** The signed sum of the offsets of [os] that name the start boundary
    ([isStartTime] true) or the end boundary (false). *)
Fixpoint total (isStartTime : bool) (os : list (Z * bool * bool)) : Z :=
  match os with
  | [] => 0
  | (offset, b, isForward) :: rest =>
      (if eqb b isStartTime then (if isForward then offset else - offset) else 0)
      + total isStartTime rest
  end.

(** ** Sample tracks *)

(** Two entries that are sorted by [startTime] and overlap in time. *)
Definition overlapping : list SubtitleEntry :=
  [mkEntry 0 0 2000 0 2000 []; mkEntry 1 1000 3000 1000 3000 []].

(** The scenario tracks of the specification: two adjacent entries, and
    two entries with a gap between them. *)
Definition adjacent : list SubtitleEntry :=
  [mkEntry 0 0 1000 0 1000 []; mkEntry 1 1000 2000 1000 2000 []].

Definition gapped : list SubtitleEntry :=
  [mkEntry 0 0 900 0 900 []; mkEntry 1 1000 2000 1000 2000 []].

(** ** Sample states *)

(** A store holding one subtitle object, at location 1, whose array, at
    location 1 of the arrays, refers to one entry object per entry. *)
Definition storeOf (es : list SubtitleEntry) : Store :=
  mkStore (list_to_map (imap (fun i e => (Pos.of_succ_nat i, e)) es))
    {[ 1%positive := imap (fun i _ => Pos.of_succ_nat i) es ]}
    {[ 1%positive := mkSubtitle 7 7 1%positive 0 None ]}.

(** The page once the track is loaded: nothing resolved yet, continuous
    mode, the media element paused at the start. *)
Definition loaded (es : list SubtitleEntry) : State :=
  mkState (storeOf es) (Some 1%positive) (-1) CONTINUOUS_PLAY false false
    (EditedTime.mk 0 0) [] false false (Some (mkVideo 0 true)).

(** A sequence of offsets. *)
Definition offsets (l : list (Z * bool * bool)) (s : State) : State :=
  foldl (fun s o => PlayPage.handleTimeOffset o.1.1 o.1.2 o.2 s) s l.

(** The first variant in single-pause mode on the adjacent track: the
    user presses play, a tick at 500 ms resolves entry 0, and then the
    user scrubs ([seeking], then [seeked]). *)
Definition singlePauseScrub : State :=
  let s := setPlayMode SINGLE_PAUSE (loaded adjacent) in
  let s := PlayPage.settle s (PlayPage.handleTogglePlayPause s) in
  let s := PlayPage.tick 500 s in
  PlayPage.handleSeeked (PlayPage.handleSeeking s).

(** An edit session on entry 0 of the adjacent track, whose text the
    user has replaced by [text]. *)
Definition editing (text : jsstring) : State :=
  let s := loaded adjacent in
  let s := PlayPage.settle s (PlayPage.handleEnterEditMode 0 s) in
  PlayPage.handleTextChange text s.

(** The same session with the text "b", the start bound moved forward by
    100 ms and the end bound moved back by 100 ms. *)
Definition calibrating : State :=
  offsets [(100, true, true); (100, false, false)] (editing [98%N]).

(** The first variant in continuous mode on the adjacent track: a tick at
    500 ms resolves entry 0, and then the user scrubs. *)
Definition scrubbed : State :=
  PlayPage.handleSeeked (PlayPage.handleSeeking (PlayPage.tick 500 (loaded adjacent))).

(** A burst that starts from the index [v]: every change differs from the
    index before it, and the pause after it is shorter than the quiet
    period. *)
Fixpoint rapid (v : Z) (changes : list (Z * Z)) : Prop :=
  match changes with
  | [] => True
  | c :: rest => c.1 <> v /\ 0 <= c.2 < SubtitleIndexPersist.wait /\ rapid c.1 rest
  end.

(** The hook after an effect has run for the index [v] of the medium [m]
    and while its debounced write is still pending. *)
Definition armed (m v : Z) (h : SubtitleIndexPersist.Hook) : Prop :=
  SubtitleIndexPersist.isFirstRender h = false
  /\ SubtitleIndexPersist.deps h = (m, v)
  /\ SubtitleIndexPersist.cleanup h = Some (m, v)
  /\ exists left_, 0 < left_ <= SubtitleIndexPersist.wait
       /\ SubtitleIndexPersist.timer h = Some (left_, (m, v)).

(** * Properties *)

(** ** Resolver: the containment scan *)

Section FindIndex.
Context {A : Type} (p : A -> bool).

Lemma findIndexFrom_spec (l : list A) (i : Z) :
  0 <= i ->
  (Resolver.findIndexFrom p l i = -1 /\ forall x, x ∈ l -> p x = false)
  \/ (exists (k : nat) x, Resolver.findIndexFrom p l i = i + Z.of_nat k
        /\ l !! k = Some x /\ p x = true
        /\ forall (k' : nat) y, (k' < k)%nat -> l !! k' = Some y -> p y = false).
Proof.
  revert i. induction l as [| a l IH]; intros i Hi; simpl.
  - left. split; [done |]. intros x Hx. inversion Hx.
  - destruct (p a) eqn:Hpa.
    + right. exists 0%nat, a. repeat split; [lia | done |].
      intros k' y Hk'. lia.
    + destruct (IH (i + 1)) as [[Hr Hall] | (k & x & Hr & Hk & Hx & Hlt)];
        [lia | |].
      * left. split; [done |]. intros x Hx.
        apply elem_of_cons in Hx as [-> | Hx]; auto.
      * right. exists (S k), x. repeat split; [lia | done | done |].
        intros [| k'] y Hk' Hy; simpl in Hy; [by inversion Hy; subst |].
        apply (Hlt k' y); [lia | done].
Qed.
End FindIndex.

Lemma item_Some {A} (entries : list A) i e :
  item entries i = Some e <-> 0 <= i /\ entries !! Z.to_nat i = Some e.
Proof.
  unfold item. destruct (decide (0 <= i)) as [H | H].
  - split; [intros ?; split; done | intros [_ ?]; done].
  - split; [intros ?; discriminate | intros [? _]; lia].
Qed.

Lemma contains_true t e :
  Resolver.contains t e = true <-> startTime e <= t < endTime e.
Proof. unfold Resolver.contains. rewrite andb_true_iff, Z.leb_le, Z.ltb_lt. tauto. Qed.

Lemma contains_false t e :
  Resolver.contains t e = false <-> ~ (startTime e <= t < endTime e).
Proof. rewrite <- contains_true. destruct (Resolver.contains t e); split; congruence. Qed.

(** The scan answers [-1] exactly when no entry covers [t], and the first
    covering index otherwise. *)
Lemma containing_spec entries t :
  (Resolver.containing entries t = -1 /\ forall i, ~ covers entries t i)
  \/ firstCover entries t (Resolver.containing entries t).
Proof.
  unfold Resolver.containing, Resolver.findIndex.
  destruct (findIndexFrom_spec (Resolver.contains t) entries 0)
    as [[Hr Hall] | (k & x & Hr & Hk & Hx & Hlt)]; [lia | |].
  - left. split; [done |]. intros i (e & He & Hin).
    apply item_Some in He as [_ He].
    assert (e ∈ entries) as Hel by (apply list_elem_of_lookup; eauto).
    apply Hall, contains_false in Hel. tauto.
  - right. rewrite Hr. split.
    + exists x. split; [| by apply contains_true].
      apply item_Some. split; [lia |]. by rewrite Z.add_0_l, Nat2Z.id.
    + intros j (e & He & Hin). apply item_Some in He as [Hj He].
      destruct (decide (0 + Z.of_nat k <= j)) as [| Hlt']; [done |].
      assert (Resolver.contains t e = false) as Hf
        by (apply (Hlt (Z.to_nat j)); [lia | done]).
      apply contains_false in Hf. tauto.
Qed.

Lemma sortedByStart_two a b :
  startTime a <= startTime b -> sortedByStart [a; b].
Proof.
  intros Hab i j x y Hij Hx Hy.
  apply item_Some in Hx as [Hi Hx]. apply item_Some in Hy as [Hj Hy].
  destruct (Z.to_nat i) as [| [| ?]] eqn:Ei; simpl in Hx; [| | done];
    destruct (Z.to_nat j) as [| [| ?]] eqn:Ej; simpl in Hy; try done;
    inversion Hx; inversion Hy; subst; lia.
Qed.

(** C3, as stated, fails: on the track [{0,0,2000},{1,1000,3000}], sorted
    by start time, the scan at t = 1500 answers 0 although entry 1 covers
    t as well, so the answer is not the unique covering index. *)
Lemma containing_not_unique :
  sortedByStart overlapping
  /\ Resolver.containing overlapping 1500 = 0
  /\ covers overlapping 1500 1
  /\ ~ uniqueCover overlapping 1500 (Resolver.containing overlapping 1500).
Proof.
  assert (covers overlapping 1500 1) as H1.
  { eexists. split; [reflexivity |]. simpl. lia. }
  repeat split.
  - apply sortedByStart_two. simpl. lia.
  - exact H1.
  - intros [_ Huniq]. specialize (Huniq 1 H1). discriminate Huniq.
Qed.

(** C3 (amended): for every track, sorted by start time or not, and every
    timestamp t, the containment scan answers -1 exactly when no entry
    has startTime <= t < endTime, and otherwise the least index of such
    an entry; the interval is half-open, so an answer i never has
    t = entries[i].endTime.  On the track [{0,0,1000},{1,1000,2000}] the
    scan answers 1 at t = 1500, and 1 as well at t = 1000, the end of
    entry 0. *)
Theorem containing_first :
  (forall entries t,
     let r := Resolver.containing entries t in
     (r = -1 <-> forall i, ~ covers entries t i)
     /\ (r <> -1 -> firstCover entries t r)
     /\ (forall e, item entries r = Some e -> t <> endTime e))
  /\ Resolver.containing adjacent 1500 = 1
  /\ Resolver.containing adjacent 1000 = 1.
Proof.
  split; [| split; reflexivity].
  intros entries t r. subst r.
  destruct (containing_spec entries t) as [[Hr Hnone] | Hfirst].
  - rewrite Hr. repeat split; try done.
  - assert (Resolver.containing entries t <> -1) as Hne.
    { destruct Hfirst as [(e & He & _) _]. apply item_Some in He as [? _]. lia. }
    repeat split.
    + done.
    + intros Hnone. destruct Hfirst as [Hc _]. by apply Hnone in Hc.
    + by destruct Hfirst.
    + by destruct Hfirst.
    + intros e He Heq. destruct Hfirst as [(e' & He' & Hin) _].
      rewrite He in He'. inversion He'; subst e'. lia.
Qed.

(** When no two entries overlap, the first covering index is the only
    one. *)
Lemma containing_unique_disjoint entries t :
  disjoint entries -> Resolver.containing entries t <> -1 ->
  uniqueCover entries t (Resolver.containing entries t).
Proof.
  intros Hdis Hne.
  destruct (containing_spec entries t) as [[Hr _] | [Hc Hleast]]; [done |].
  split; [done |]. intros j Hj.
  destruct (decide (j = Resolver.containing entries t)) as [| Hdiff]; [done |].
  pose proof (Hleast j Hj) as Hle.
  destruct Hc as (a & Ha & Hta), Hj as (b & Hb & Htb).
  assert (endTime a <= startTime b)
    by (apply (Hdis (Resolver.containing entries t) j); [lia | done | done]).
  lia.
Qed.

(** ** Resolver: the directional search *)

(** One turn of the loop. *)
Lemma searchLoop_step entries t d lo hi res :
  Resolver.searchLoop entries t d lo hi res =
  if decide (lo <= hi) then
    let mid := (lo + hi) `div` 2 in
    match item entries mid with
    | None => Throw
    | Some entry =>
        match d with
        | next =>
            if t <? startTime entry
            then Resolver.searchLoop entries t d lo (mid - 1) mid
            else Resolver.searchLoop entries t d (mid + 1) hi res
        | previous =>
            if startTime entry <? t
            then Resolver.searchLoop entries t d (mid + 1) hi mid
            else Resolver.searchLoop entries t d lo (mid - 1) res
        end
    end
  else Normal res.
Proof.
  rewrite Resolver.searchLoop_equation_1.
  destruct (Z_le_gt_dec lo hi) as [Hle | Hgt], (decide (lo <= hi)) as [Hd | Hd];
    try lia; reflexivity.
Qed.

Lemma mid_bounds lo hi : lo <= hi -> lo <= (lo + hi) `div` 2 <= hi.
Proof.
  intros. split; [apply Z.div_le_lower_bound | apply Z.div_le_upper_bound]; lia.
Qed.

Lemma item_in_range {A} (entries : list A) i :
  0 <= i < Z.of_nat (length entries) -> exists e, item entries i = Some e.
Proof.
  intros Hi. destruct (lookup_lt_is_Some_2 entries (Z.to_nat i)) as [e He]; [lia |].
  exists e. apply item_Some. split; [lia | done].
Qed.

Lemma item_range {A} (entries : list A) i e :
  item entries i = Some e -> 0 <= i < Z.of_nat (length entries).
Proof.
  intros [Hi He]%item_Some. apply lookup_lt_Some in He. lia.
Qed.

Section Search.
Variable entries : list SubtitleEntry.
Variable t : Z.
Hypothesis Hsorted : sortedByStart entries.

Let len := Z.of_nat (length entries).

(** Forward search: everything left of [lo] starts at or before [t],
    everything right of [hi] starts after [t], and [res] is the first
    index right of [hi], if there is one. *)
Lemma searchLoop_next (n : nat) : forall lo hi res,
  Z.to_nat (hi - lo + 1) = n ->
  0 <= lo -> hi < len -> lo <= hi + 1 ->
  (forall j e, j < lo -> item entries j = Some e -> startTime e <= t) ->
  (forall j e, hi < j -> item entries j = Some e -> t < startTime e) ->
  res = (if decide (hi + 1 < len) then hi + 1 else -1) ->
  exists r, Resolver.searchLoop entries t next lo hi res = Normal r
            /\ leastAfter entries t r.
Proof.
  induction n as [n IH] using lt_wf_ind.
  intros lo hi res Hn Hlo Hhi Hlh Hleft Hright Hres.
  rewrite searchLoop_step. destruct (decide (lo <= hi)) as [Hle | Hgt].
  - pose proof (mid_bounds lo hi Hle) as Hmid. cbv zeta.
    destruct (item_in_range entries ((lo + hi) `div` 2)) as [e He]; [unfold len in *; lia |].
    rewrite He. destruct (t <? startTime e) eqn:Hcmp.
    + apply Z.ltb_lt in Hcmp.
      eapply IH; [| reflexivity | | | | | |]; try lia.
      * done.
      * intros j e' Hj He'. apply Z.lt_le_trans with (startTime e); [done |].
        eapply (Hsorted ((lo + hi) `div` 2) j); [lia | done | done].
      * rewrite decide_True by lia. lia.
    + apply Z.ltb_ge in Hcmp.
      eapply IH; [| reflexivity | | | | | |]; try lia.
      * intros j e' Hj He'. apply Z.le_trans with (startTime e); [| done].
        eapply (Hsorted j ((lo + hi) `div` 2)); [lia | done | done].
      * done.
  - exists res. split; [done |].
    assert (lo = hi + 1) as -> by lia. subst res.
    destruct (decide (hi + 1 < len)) as [Hin | Hout].
    + right. destruct (item_in_range entries (hi + 1)) as [e He]; [unfold len in *; lia |].
      exists e. repeat split; [done | |].
      * apply (Hright (hi + 1)); [lia | done].
      * intros j e' He' Hlt. destruct (decide (hi + 1 <= j)); [done |].
        assert (startTime e' <= t) by (apply (Hleft j); [lia | done]). lia.
    + left. split; [done |]. intros j e He.
      apply (Hleft j); [| done]. apply item_range in He. unfold len in *. lia.
Qed.

(** Backward search: everything left of [lo] starts before [t],
    everything right of [hi] starts at or after [t], and [res] is the
    last index left of [lo]. *)
Lemma searchLoop_previous (n : nat) : forall lo hi res,
  Z.to_nat (hi - lo + 1) = n ->
  0 <= lo -> hi < len -> lo <= hi + 1 ->
  (forall j e, j < lo -> item entries j = Some e -> startTime e < t) ->
  (forall j e, hi < j -> item entries j = Some e -> t <= startTime e) ->
  res = lo - 1 ->
  exists r, Resolver.searchLoop entries t previous lo hi res = Normal r
            /\ greatestBefore entries t r.
Proof.
  induction n as [n IH] using lt_wf_ind.
  intros lo hi res Hn Hlo Hhi Hlh Hleft Hright Hres.
  rewrite searchLoop_step. destruct (decide (lo <= hi)) as [Hle | Hgt].
  - pose proof (mid_bounds lo hi Hle) as Hmid. cbv zeta.
    destruct (item_in_range entries ((lo + hi) `div` 2)) as [e He]; [unfold len in *; lia |].
    rewrite He. destruct (startTime e <? t) eqn:Hcmp.
    + apply Z.ltb_lt in Hcmp.
      eapply IH; [| reflexivity | | | | | |]; try lia.
      * intros j e' Hj He'. apply Z.le_lt_trans with (startTime e); [| done].
        eapply (Hsorted j ((lo + hi) `div` 2)); [lia | done | done].
      * done.
    + apply Z.ltb_ge in Hcmp.
      eapply IH; [| reflexivity | | | | | |]; try lia.
      * done.
      * intros j e' Hj He'. apply Z.le_trans with (startTime e); [done |].
        eapply (Hsorted ((lo + hi) `div` 2) j); [lia | done | done].
  - exists res. split; [done |].
    assert (hi = lo - 1) as -> by lia. subst res.
    destruct (decide (0 <= lo - 1)) as [Hin | Hout].
    + right. destruct (item_in_range entries (lo - 1)) as [e He]; [unfold len in *; lia |].
      exists e. repeat split; [done | |].
      * apply (Hleft (lo - 1)); [lia | done].
      * intros j e' He' Hlt. destruct (decide (j <= lo - 1)); [done |].
        assert (t <= startTime e') by (apply (Hright j); [lia | done]). lia.
    + left. split; [lia |]. intros j e He.
      apply (Hright j); [| done]. apply item_range in He. lia.
Qed.

Lemma findSubtitleIndexByTime_next :
  exists r, Resolver.findSubtitleIndexByTime entries t next = Normal r
            /\ leastAfter entries t r.
Proof.
  unfold Resolver.findSubtitleIndexByTime.
  eapply searchLoop_next; [reflexivity | | | | | |]; fold len; try lia.
  - intros j e Hj He. apply item_range in He. lia.
  - intros j e Hj He. apply item_range in He. unfold len in *. lia.
  - rewrite decide_False by lia. done.
Qed.

Lemma findSubtitleIndexByTime_previous :
  exists r, Resolver.findSubtitleIndexByTime entries t previous = Normal r
            /\ greatestBefore entries t r.
Proof.
  unfold Resolver.findSubtitleIndexByTime.
  eapply searchLoop_previous; [reflexivity | | | | | |]; fold len; try lia.
  - intros j e Hj He. apply item_range in He. lia.
  - intros j e Hj He. apply item_range in He. unfold len in *. lia.
Qed.
End Search.

Lemma leastAfter_empty t r : leastAfter [] t r -> r = -1.
Proof.
  intros [[-> _] | (e & He & _)]; [done |].
  apply item_range in He. simpl in He. lia.
Qed.

Lemma greatestBefore_empty t r : greatestBefore [] t r -> r = -1.
Proof.
  intros [[-> _] | (e & He & _)]; [done |].
  apply item_range in He. simpl in He. lia.
Qed.

(** C6: on a track sorted ascending by startTime, the forward search
    returns the least index whose startTime is greater than t and the
    backward search the greatest index whose startTime is less than t,
    -1 when there is none; so both return -1 on the empty track, a t
    before the first start gives 0 forward and -1 backward, and a t after
    the last start gives -1 forward and the last index backward. *)
Theorem directional_search entries t :
  sortedByStart entries ->
  (exists r, Resolver.findSubtitleIndexByTime entries t next = Normal r
             /\ leastAfter entries t r)
  /\ (exists r, Resolver.findSubtitleIndexByTime entries t previous = Normal r
               /\ greatestBefore entries t r)
  /\ (entries = [] ->
      Resolver.findSubtitleIndexByTime entries t next = Normal (-1)
      /\ Resolver.findSubtitleIndexByTime entries t previous = Normal (-1))
  /\ (forall first, item entries 0 = Some first -> t < startTime first ->
      Resolver.findSubtitleIndexByTime entries t next = Normal 0
      /\ Resolver.findSubtitleIndexByTime entries t previous = Normal (-1))
  /\ (forall last, item entries (Z.of_nat (length entries) - 1) = Some last ->
      startTime last < t ->
      Resolver.findSubtitleIndexByTime entries t next = Normal (-1)
      /\ Resolver.findSubtitleIndexByTime entries t previous
         = Normal (Z.of_nat (length entries) - 1)).
Proof.
  intros Hsorted.
  destruct (findSubtitleIndexByTime_next entries t Hsorted) as (rn & Hn & Hln).
  destruct (findSubtitleIndexByTime_previous entries t Hsorted) as (rp & Hp & Hgp).
  rewrite Hn, Hp.
  split; [eauto |]. split; [eauto |]. split; [| split].
  - intros ->. by rewrite (leastAfter_empty _ _ Hln), (greatestBefore_empty _ _ Hgp).
  - intros e0 He0 Hbefore. split; f_equal.
    + destruct Hln as [[_ Hall] | (e & He & _ & Hleast)].
      * specialize (Hall 0 e0 He0). lia.
      * specialize (Hleast 0 e0 He0 Hbefore). apply item_range in He. lia.
    + destruct Hgp as [[-> _] | (e & He & Hlt & _)]; [done |].
      assert (startTime e0 <= startTime e); [| lia].
      apply (Hsorted 0 rp); [apply item_range in He; lia | done | done].
  - intros e0 He0 Hafter. split; f_equal.
    + destruct Hln as [[-> _] | (e & He & Hlt & _)]; [done |].
      assert (startTime e <= startTime e0); [| lia].
      apply (Hsorted rn (Z.of_nat (length entries) - 1));
        [apply item_range in He; lia | done | done].
    + destruct Hgp as [[_ Hall] | (e & He & _ & Hgreatest)].
      * specialize (Hall _ e0 He0). lia.
      * specialize (Hgreatest _ e0 He0 Hafter). apply item_range in He. lia.
Qed.

(** The search, run on the adjacent track at t = 500. *)
Lemma directional_search_witness :
  sortedByStart adjacent
  /\ Resolver.findSubtitleIndexByTime adjacent 500 next = Normal 1
  /\ exists r, Resolver.findSubtitleIndexByTime adjacent 500 previous = Normal r
               /\ greatestBefore adjacent 500 r.
Proof.
  assert (sortedByStart adjacent) as Hs by (apply sortedByStart_two; simpl; lia).
  split; [exact Hs |]. split; [reflexivity |].
  exact (proj1 (proj2 (directional_search adjacent 500 Hs))).
Defined.

(** ** The play page: what a tick may change *)

(** Case analysis of a handler: unfold the sequencing of completions and
    split on every test. *)
Ltac run_completion :=
  unfold mbind, Completion_bind, mret, Completion_ret, prop in *;
  repeat (case_match; simpl in *; simplify_eq).

(** [checkPlayMode] writes nothing but the media element, in both
    variants. *)
Lemma checkPlayMode_video b s u s' :
  PlayPage.checkPlayMode b s = Normal (u, s') ->
  s' = s \/ exists v, s' = setVideo v s.
Proof.
  unfold PlayPage.checkPlayMode. intros H. run_completion; eauto.
Qed.

Lemma checkPlayMode2_video b s u s' :
  PlayPage2.checkPlayMode b s = Normal (u, s') ->
  s' = s \/ exists v, s' = setVideo v s.
Proof.
  unfold PlayPage2.checkPlayMode. intros H. run_completion; eauto.
Qed.

Lemma clock_spec t s :
  (videoRef s = None /\ PlayPage.clock t s = s)
  \/ (exists v, videoRef s = Some v /\ PlayPage.clock t s = setVideo (seek t v) s).
Proof. unfold PlayPage.clock. destruct (videoRef s); eauto. Qed.

(** A tick whose scan finds nothing keeps the index and the flag. *)
Lemma handleTimeUpdate_gap s sub es v :
  subtitle s = Some sub -> entriesOf (store s) sub = Some es ->
  videoRef s = Some v -> Resolver.containing es (currentTimeMs v) = -1 ->
  forall s', PlayPage.handleTimeUpdate s = Normal s' ->
  currentSubtitleIndex s' = currentSubtitleIndex s /\ isSeeking s' = isSeeking s.
Proof.
  intros Hsub Hes Hv Hscan s' H. unfold PlayPage.handleTimeUpdate in H.
  rewrite Hsub, Hv in H. simpl in H.
  destruct (PlayPage.checkPlayMode false s) as [[u s1] |] eqn:Hc; simpl in H; [| done].
  assert (store s1 = store s /\ currentSubtitleIndex s1 = currentSubtitleIndex s
          /\ isSeeking s1 = isSeeking s) as (Hst & Hidx & Hsk).
  { apply checkPlayMode_video in Hc as [-> | [w ->]]; done. }
  destruct u; simpl in H; [| by inversion H; subst].
  rewrite Hst, Hes in H. simpl in H.
  unfold Resolver.containing in Hscan. rewrite Hscan in H.
  rewrite decide_False in H by (intros Hne; by apply Hne).
  by inversion H; subst.
Qed.

Lemma handleTimeUpdate2_gap s sub es v :
  subtitle s = Some sub -> entriesOf (store s) sub = Some es ->
  videoRef s = Some v -> Resolver.containing es (currentTimeMs v) = -1 ->
  forall s', PlayPage2.handleTimeUpdate s = Normal s' ->
  currentSubtitleIndex s' = currentSubtitleIndex s /\ isSeeking s' = isSeeking s.
Proof.
  intros Hsub Hes Hv Hscan s' H. unfold PlayPage2.handleTimeUpdate in H.
  destruct (isSeeking s) eqn:Hseek; [by inversion H; subst |].
  rewrite Hsub, Hv in H. simpl in H.
  destruct (PlayPage2.checkPlayMode false s) as [[u s1] |] eqn:Hc; simpl in H; [| done].
  assert (store s1 = store s /\ currentSubtitleIndex s1 = currentSubtitleIndex s
          /\ isSeeking s1 = isSeeking s) as (Hst & Hidx & Hsk).
  { apply checkPlayMode2_video in Hc as [-> | [w ->]]; done. }
  destruct u; simpl in H; [| inversion H; subst; split; congruence].
  rewrite Hst, Hes in H. simpl in H.
  unfold Resolver.containing in Hscan. rewrite Hscan in H.
  rewrite decide_False in H by (intros Hne; by apply Hne).
  inversion H; subst; split; congruence.
Qed.

(** C4: a tick whose containment scan answers -1 leaves currentIndex as
    it was, in either variant of the page and whatever the mode; on the
    track [{0,0,900},{1,1000,2000}] the scan at t = 950 answers -1, and a
    tick there keeps any previous index. *)
Theorem gap_keeps_index :
  (forall s sub es t,
     subtitle s = Some sub -> entriesOf (store s) sub = Some es ->
     Resolver.containing es t = -1 ->
     currentSubtitleIndex (PlayPage.tick t s) = currentSubtitleIndex s
     /\ currentSubtitleIndex (PlayPage2.tick t s) = currentSubtitleIndex s)
  /\ Resolver.containing gapped 950 = -1
  /\ (forall i,
        currentSubtitleIndex
          (PlayPage.tick 950 (setCurrentSubtitleIndex i (loaded gapped))) = i).
Proof.
  assert (forall s sub es t,
     subtitle s = Some sub -> entriesOf (store s) sub = Some es ->
     Resolver.containing es t = -1 ->
     currentSubtitleIndex (PlayPage.tick t s) = currentSubtitleIndex s
     /\ currentSubtitleIndex (PlayPage2.tick t s) = currentSubtitleIndex s) as Hgen.
  { intros s sub es t Hsub Hes Hscan. unfold PlayPage.tick, PlayPage2.tick.
    destruct (clock_spec t s) as [[Hv ->] | (v & Hv & ->)].
    - unfold PlayPage.handleTimeUpdate, PlayPage2.handleTimeUpdate.
      rewrite Hsub, Hv. simpl. by destruct (isSeeking s).
    - set (s1 := setVideo (seek t v) s). split.
      + destruct (PlayPage.handleTimeUpdate s1) as [s' |] eqn:H; simpl; [| done].
        eapply (handleTimeUpdate_gap s1) in H as [-> _]; done.
      + destruct (PlayPage2.handleTimeUpdate s1) as [s' |] eqn:H; simpl; [| done].
        eapply (handleTimeUpdate2_gap s1) in H as [-> _]; done. }
  split; [exact Hgen |]. split; [reflexivity |].
  intros i.
  apply (Hgen (setCurrentSubtitleIndex i (loaded gapped)) 1%positive gapped 950);
    reflexivity.
Qed.

(** ** Single-pause mode *)

Lemma entryAt_resolved σ sub i e : entryAt σ sub i = Some e -> i <> -1.
Proof.
  unfold entryAt, entryRefAt. intros H Hi. subst i.
  destruct (entryRefs σ sub); simpl in H; done.
Qed.

Lemma setVideo_setVideo v w s : setVideo v (setVideo w s) = setVideo v s.
Proof. reflexivity. Qed.

Section SinglePause.
Variables (s : State) (sub : loc) (e : SubtitleEntry).
Hypothesis Hmode : playMode s = SINGLE_PAUSE.
Hypothesis Hedit : editMode s = false.
Hypothesis Hrecord : recordingMode s = false.
Hypothesis Hseek : isSeeking s = false.
Hypothesis Hsub : subtitle s = Some sub.
Hypothesis Hentry : entryAt (store s) sub (currentSubtitleIndex s) = Some e.

Lemma singlePause_check b v :
  PlayPage.checkPlayMode b (setVideo v s)
  = Normal (false,
            setVideo (let w := if b then seek (preciseStartTime e) v else v in
                      if preciseEndTime e <=? currentTimeMs v then pause w else w)
                     s).
Proof.
  unfold PlayPage.checkPlayMode. simpl.
  rewrite Hsub, Hmode, Hedit, Hrecord, Hseek, Hentry. simpl.
  rewrite decide_False by (by eapply entryAt_resolved).
  by destruct b.
Qed.

Lemma singlePause_tick t v :
  PlayPage.tick t (setVideo v s)
  = setVideo (if preciseEndTime e <=? t then pause (seek t v) else seek t v) s.
Proof.
  unfold PlayPage.tick, PlayPage.clock, PlayPage.handleTimeUpdate. simpl.
  rewrite Hsub. simpl. rewrite setVideo_setVideo, singlePause_check. reflexivity.
Qed.

Lemma singlePause_ticks ts : forall v,
  exists w, PlayPage.ticks ts (setVideo v s) = setVideo w s.
Proof.
  unfold PlayPage.ticks. induction ts as [| t ts IH]; intros v; simpl; [eauto |].
  rewrite singlePause_tick. apply IH.
Qed.
End SinglePause.

(** C5, as stated, fails: in single-pause mode with entry 0 resolved and
    neither edit nor record active, but with a scrub pending, a tick at
    1500 ms (past entry 0's preciseEndTime of 1000) moves currentIndex
    from 0 to 1 and does not pause. *)
Lemma singlePause_scrub_moves_index :
  playMode singlePauseScrub = SINGLE_PAUSE
  /\ editMode singlePauseScrub = false
  /\ recordingMode singlePauseScrub = false
  /\ currentSubtitleIndex singlePauseScrub = 0
  /\ (preciseEndTime <$> entryAt (store singlePauseScrub) 1%positive 0) = Some 1000
  /\ currentSubtitleIndex (PlayPage.ticks [1500] singlePauseScrub) = 1
  /\ (paused <$> videoRef (PlayPage.ticks [1500] singlePauseScrub)) = Some false.
Proof. vm_compute. repeat split; reflexivity. Qed.

(** C5 (amended): in single-pause mode with a resolved currentIndex, no
    edit or record session and no scrub pending (the seeking flag clear),
    an explicit resume seeks to the current entry's preciseStartTime and
    plays; after any sequence of ticks currentIndex is what it was, and a
    further tick at a time t >= preciseEndTime leaves the media paused. *)
Theorem singlePause_holds_index s sub v e :
  playMode s = SINGLE_PAUSE -> editMode s = false -> recordingMode s = false ->
  isSeeking s = false ->
  subtitle s = Some sub -> videoRef s = Some v ->
  entryAt (store s) sub (currentSubtitleIndex s) = Some e ->
  (isPlaying s = false ->
   exists s', PlayPage.handleTogglePlayPause s = Normal s'
     /\ videoRef s' = Some (mkVideo (preciseStartTime e) false)
     /\ currentSubtitleIndex s' = currentSubtitleIndex s)
  /\ (forall ts,
        currentSubtitleIndex (PlayPage.ticks ts s) = currentSubtitleIndex s
        /\ forall t, preciseEndTime e <= t ->
             (paused <$> videoRef (PlayPage.tick t (PlayPage.ticks ts s))) = Some true
             /\ currentSubtitleIndex (PlayPage.tick t (PlayPage.ticks ts s))
                = currentSubtitleIndex s).
Proof.
  intros Hmode Hedit Hrecord Hseek Hsub Hv Hentry.
  assert (s = setVideo v s) as Hs by (destruct s; simpl in *; by subst).
  split.
  - intros Hplaying. rewrite Hs. unfold PlayPage.handleTogglePlayPause. simpl.
    rewrite Hplaying, (singlePause_check s sub e) by done. simpl.
    eexists. split; [reflexivity |]. simpl. split; [| done].
    by destruct (preciseEndTime e <=? currentTimeMs v).
  - intros ts. rewrite Hs.
    destruct (singlePause_ticks s sub e Hmode Hedit Hrecord Hseek Hsub Hentry ts v)
      as [w ->].
    split; [done |]. intros t Ht.
    rewrite (singlePause_tick s sub e) by done.
    apply Z.leb_le in Ht. rewrite Ht. done.
Qed.

(** Single-pause mode once a tick has resolved entry 0 of the adjacent
    track, with no scrub pending. *)
Lemma singlePause_holds_index_witness :
  let s := PlayPage.tick 500 (setPlayMode SINGLE_PAUSE (loaded adjacent)) in
  currentSubtitleIndex s = 0
  /\ forall ts, currentSubtitleIndex (PlayPage.ticks ts s) = 0.
Proof.
  intros s. split; [reflexivity |]. intros ts.
  refine (proj1 (proj2 (singlePause_holds_index s 1%positive (mkVideo 500 true)
    (mkEntry 0 0 1000 0 1000 []) _ _ _ _ _ _ _) ts)); reflexivity.
Defined.

(** ** The edit session: offsets *)

(** C7: an offset moves the named boundary of the edit buffer from its
    current buffered value, by +offset forward and by -offset backward,
    and leaves the other boundary alone; so +500 then -200 on a boundary
    buffered at X leaves it at X + 300, whether -200 is given as 200
    backward or as -200 forward, and X is the entry's precise bound when
    the offsets follow the entry into edit mode. *)
Theorem offsets_compound :
  (forall s offset,
     let X := EditedTime.startTime (editedTime s) in
     let Y := EditedTime.endTime (editedTime s) in
     editedTime (PlayPage.handleTimeOffset offset true true s) = EditedTime.mk (X + offset) Y
     /\ editedTime (PlayPage.handleTimeOffset offset true false s) = EditedTime.mk (X - offset) Y
     /\ editedTime (PlayPage.handleTimeOffset offset false true s) = EditedTime.mk X (Y + offset)
     /\ editedTime (PlayPage.handleTimeOffset offset false false s) = EditedTime.mk X (Y - offset))
  /\ (forall s,
       let X := EditedTime.startTime (editedTime s) in
       let Y := EditedTime.endTime (editedTime s) in
       editedTime (offsets [(500, true, true); (200, true, false)] s) = EditedTime.mk (X + 300) Y
       /\ editedTime (offsets [(500, true, true); (-200, true, true)] s) = EditedTime.mk (X + 300) Y
       /\ editedTime (offsets [(500, false, true); (200, false, false)] s) = EditedTime.mk X (Y + 300)
       /\ editedTime (offsets [(500, false, true); (-200, false, true)] s) = EditedTime.mk X (Y + 300))
  /\ (forall s i s' sub v e,
       subtitle s = Some sub -> videoRef s = Some v ->
       entryAt (store s) sub i = Some e ->
       PlayPage.handleEnterEditMode i s = Normal s' ->
       editedTime (offsets [(500, true, true); (200, true, false)] s')
       = EditedTime.mk (preciseStartTime e + 300) (preciseEndTime e)).
Proof.
  split; [| split].
  - intros s offset. simpl. done.
  - intros s. unfold offsets, PlayPage.handleTimeOffset. simpl.
    repeat split; f_equal; lia.
  - intros s i s' sub v e Hsub Hv He H.
    unfold PlayPage.handleEnterEditMode in H. rewrite Hsub, Hv, He in H.
    rewrite decide_False in H by (by eapply entryAt_resolved).
    simpl in H. inversion H; subst s'. unfold offsets, PlayPage.handleTimeOffset.
    simpl. f_equal. lia.
Qed.

(** Entry 1 of the adjacent track, buffered at 1000, moved by +500 and
    then by -200. *)
Lemma offsets_compound_witness :
  editedTime (offsets [(500, true, true); (200, true, false)]
                (PlayPage.settle (loaded adjacent)
                   (PlayPage.handleEnterEditMode 1 (loaded adjacent))))
  = EditedTime.mk 1300 2000.
Proof.
  exact (proj2 (proj2 offsets_compound) (loaded adjacent) 1 _ 1%positive
           (mkVideo 0 true) (mkEntry 1 1000 2000 1000 2000 [])
           eq_refl eq_refl eq_refl eq_refl).
Defined.

(** ** The edit session: saving *)

Lemma trimStart_nil s : trimStart s = [] <-> blank s.
Proof.
  unfold blank. induction s as [| c s IH]; simpl.
  - split; [constructor | done].
  - destruct (isWhiteSpace c) eqn:Hc.
    + rewrite IH. split; [by constructor | by inversion 1].
    + split; [done |]. inversion 1; congruence.
Qed.

Lemma trimStart_suffix s : exists p, blank p /\ s = p ++ trimStart s.
Proof.
  induction s as [| c s (p & Hp & IH)]; simpl.
  - exists []. split; [constructor | done].
  - destruct (isWhiteSpace c) eqn:Hc.
    + exists (c :: p). split; [by constructor | by rewrite IH at 1].
    + exists []. split; [constructor | done].
Qed.

(** [trim] answers the empty string exactly on the empty string and on
    strings of white space. *)
Lemma trim_nil s : trim s = [] <-> blank s.
Proof.
  unfold trim, trimEnd.
  assert (forall l : jsstring, rev l = [] <-> l = []) as Hrev.
  { intros l. split; [| by intros ->].
    intros H. apply (f_equal (@rev N)) in H. by rewrite rev_involutive in H. }
  rewrite Hrev, trimStart_nil. unfold blank.
  destruct (trimStart_suffix s) as (p & Hp & Hs). split.
  - intros H. apply Forall_rev in H. rewrite rev_involutive in H.
    rewrite Hs. apply Forall_app. done.
  - intros H. apply trimStart_nil in H. rewrite H. constructor.
Qed.

(** Entering edit mode opens a session: the track is loaded and the
    index is resolved. *)
Lemma enterEditMode_session i s s' :
  PlayPage.handleEnterEditMode i s = Normal s' -> editMode s = false ->
  editMode s' = true ->
  is_Some (subtitle s') /\ currentSubtitleIndex s' <> -1.
Proof.
  unfold PlayPage.handleEnterEditMode. intros H Hoff Hon.
  run_completion; try congruence. split; [by eexists | done].
Qed.


(** C8: when the buffered text trims to the empty string, Save returns
    before it touches anything: the state after it (track, store, edit
    buffer, editMode, index) is the state before it, nothing is handed to
    the database and no write is awaited; and in an edit session (a track
    is loaded and currentIndex is resolved) the one thing sent out is the
    warning that the text must not be empty. *)
Theorem save_rejects_blank_text s :
  trim (editedText s) = [] ->
  let '(s', out, stage) := PlayPage.handleSaveSubtitleEdit s in
  s' = s /\ stage = PlayPage.Returned
  /\ (forall o, MediaDatabaseService_updateSubtitle o ∉ out)
  /\ (is_Some (subtitle s) -> currentSubtitleIndex s <> -1 ->
      out = [message_warning_emptyText]).
Proof.
  intros Hblank. unfold PlayPage.handleSaveSubtitleEdit.
  destruct (subtitle s) as [sub |].
  - destruct (decide (currentSubtitleIndex s = -1)) as [Hi | Hi].
    + repeat split; [| done]. intros o Ho. inversion Ho.
    + rewrite decide_True by done. repeat split.
      intros o Ho. apply list_elem_of_singleton in Ho. discriminate Ho.
  - repeat split.
    + intros o Ho. inversion Ho.
    + intros [? ?]. done.
Qed.

(** Saving a text of one space and one tab in an edit session. *)
Lemma save_rejects_blank_text_witness :
  trim (editedText (editing [32; 9]%N)) = []
  /\ PlayPage.handleSaveSubtitleEdit (editing [32; 9]%N)
     = (editing [32; 9]%N, [message_warning_emptyText], PlayPage.Returned).
Proof.
  split; [reflexivity |].
  pose proof (save_rejects_blank_text (editing [32; 9]%N) eq_refl) as H.
  destruct (PlayPage.handleSaveSubtitleEdit (editing [32; 9]%N)) as [[s' out] stage].
  destruct H as (-> & -> & _ & Hout).
  rewrite Hout; [reflexivity | by eexists | discriminate].
Defined.

(** The entry that Save writes over [e]. *)
Lemma alter_thrice (m : gmap loc SubtitleEntry) r e (a b : Z) (c : jsstring) :
  m !! r = Some e ->
  alter (fun e => mkEntry (index e) (startTime e) (endTime e)
                    (preciseStartTime e) (preciseEndTime e) c) r
    (alter (fun e => mkEntry (index e) (startTime e) (endTime e)
                       (preciseStartTime e) b (text e)) r
       (alter (fun e => mkEntry (index e) (startTime e) (endTime e)
                          a (preciseEndTime e) (text e)) r m))
  = <[r := mkEntry (index e) (startTime e) (endTime e) a b c]> m.
Proof.
  intros Hr. apply map_eq. intros j.
  destruct (decide (r = j)) as [<- | Hne].
  - rewrite lookup_insert_eq, !lookup_alter_eq, Hr. reflexivity.
  - rewrite lookup_insert_ne, !lookup_alter_ne by done. reflexivity.
Qed.

Section Save.
Variables (s : State) (sub r : loc) (e : SubtitleEntry).
Hypothesis Hsub : subtitle s = Some sub.
Hypothesis Htext : trim (editedText s) <> [].
Hypothesis Href : entryRefAt (store s) sub (currentSubtitleIndex s) = Some r.
Hypothesis Hobj : entryObjs (store s) !! r = Some e.

(** The new subtitle object, the entry as saved, the store after Save. *)
Let new := fresh (dom (subtitleObjs (store s))).
Let saved :=
  mkEntry (index e) (startTime e) (endTime e)
    (EditedTime.startTime (editedTime s)) (EditedTime.endTime (editedTime s))
    (trim (editedText s)).

Lemma save_object : exists o, subtitleObjs (store s) !! sub = Some o.
Proof.
  unfold entryRefAt, entryRefs in Href.
  destruct (subtitleObjs (store s) !! sub) as [o |]; [eauto | done].
Qed.

Lemma save_new_fresh : new <> sub.
Proof.
  destruct save_object as [o Ho]. intros Heq.
  assert (sub ∈ dom (subtitleObjs (store s))) as Hin by (apply elem_of_dom; eauto).
  rewrite <- Heq in Hin. by apply is_fresh in Hin.
Qed.

Lemma save_index : currentSubtitleIndex s <> -1.
Proof.
  intros Hi. unfold entryRefAt in Href. rewrite Hi in Href.
  destruct (entryRefs (store s) sub); simpl in Href; done.
Qed.

Lemma save_runs :
  exists o σ,
    subtitleObjs (store s) !! sub = Some o
    /\ σ = mkStore (<[r := saved]> (entryObjs (store s))) (arrays (store s))
             (<[new := o]> (subtitleObjs (store s)))
    /\ PlayPage.handleSaveSubtitleEdit s
       = (setStore σ s, [MediaDatabaseService_updateSubtitle (snapshot σ new)],
          PlayPage.Awaiting new).
Proof.
  destruct save_object as [o Ho]. exists o. eexists. split; [done |]. split; [reflexivity |].
  unfold PlayPage.handleSaveSubtitleEdit. rewrite Hsub.
  rewrite decide_False by apply save_index.
  rewrite decide_False by done.
  unfold spread. rewrite Ho. simpl. fold new.
  assert (entryRefAt
            (mkStore (entryObjs (store s)) (arrays (store s))
               (<[new := o]> (subtitleObjs (store s)))) new (currentSubtitleIndex s)
          = Some r) as ->.
  { unfold entryRefAt, entryRefs in *. simpl. rewrite lookup_insert_eq.
    rewrite Ho in Href. done. }
  unfold updateEntry. simpl. rewrite (alter_thrice _ _ e) by done. reflexivity.
Qed.

(** Through the old reference and through the new one a reader finds the
    same, rewritten entry object. *)
Lemma save_aliases o σ :
  subtitleObjs (store s) !! sub = Some o ->
  σ = mkStore (<[r := saved]> (entryObjs (store s))) (arrays (store s))
        (<[new := o]> (subtitleObjs (store s))) ->
  entryAt σ sub (currentSubtitleIndex s) = Some saved
  /\ entryAt σ new (currentSubtitleIndex s) = Some saved.
Proof.
  intros Ho ->. unfold entryAt, entryRefAt, entryRefs in *. simpl.
  rewrite lookup_insert_eq, lookup_insert_ne by apply save_new_fresh.
  rewrite Ho in *. simpl in *.
  destruct (arrays (store s) !! entries o) as [refs |]; simpl in *; [| done].
  rewrite Href. simpl. rewrite lookup_insert_eq. done.
Qed.
End Save.

(** C2 is violated by the code.  Save copies the subtitle object only:
    the copy shares the entries array and the entry objects, and Save
    then assigns to the shared entry object.  So when Save waits for the
    database, with the in-memory reference still the old one, a reader of
    the old reference already finds the entry with the buffer's bounds
    and text; and when the write fails, the old reference stays in place
    with the entry rewritten. *)
Theorem save_writes_through_old_reference s sub r e :
  subtitle s = Some sub ->
  trim (editedText s) <> [] ->
  entryRefAt (store s) sub (currentSubtitleIndex s) = Some r ->
  entryObjs (store s) !! r = Some e ->
  let saved :=
    mkEntry (index e) (startTime e) (endTime e)
      (EditedTime.startTime (editedTime s)) (EditedTime.endTime (editedTime s))
      (trim (editedText s)) in
  let result := PlayPage.handleSaveSubtitleEdit s in
  let s' := result.1.1 in
  entryAt (store s) sub (currentSubtitleIndex s) = Some e
  /\ subtitle s' = Some sub
  /\ entryAt (store s') sub (currentSubtitleIndex s) = Some saved
  /\ exists new,
       result.2 = PlayPage.Awaiting new /\ new <> sub
       /\ entryRefAt (store s') new (currentSubtitleIndex s) = Some r
       /\ (PlayPage.handleSaveSubtitleEdit_resume new false s').1 = s'.
Proof.
  intros Hsub Htext Href Hobj saved result s'.
  destruct (save_runs s sub r e Hsub Htext Href Hobj) as (o & σ & Ho & Hσ & Hrun).
  destruct (save_aliases s sub r e Href o σ Ho Hσ) as [Hold Hnew].
  subst result s'. rewrite Hrun. simpl.
  split; [| split; [done | split; [done |]]].
  - unfold entryAt. rewrite Href. done.
  - eexists. split; [reflexivity |]. split; [by eapply save_new_fresh |].
    split; [| done].
    unfold entryAt in Hnew.
    destruct (entryRefAt σ _ (currentSubtitleIndex s)) as [r' |] eqn:Hr'; [| done].
    f_equal. subst σ. unfold entryRefAt, entryRefs in *. simpl in *.
    rewrite lookup_insert_eq in Hr'. rewrite Ho in Href. simpl in *. congruence.
Qed.

(** Entry 0 of the adjacent track ({0, 0, 1000, 0, 1000, ""}), saved with
    the buffer (100, 900, "b"): read through the reference the page still
    holds while Save waits for the database. *)
Lemma save_writes_through_old_reference_witness :
  let s' := (PlayPage.handleSaveSubtitleEdit calibrating).1.1 in
  entryAt (store calibrating) 1%positive 0 = Some (mkEntry 0 0 1000 0 1000 [])
  /\ subtitle s' = subtitle calibrating
  /\ entryAt (store s') 1%positive 0 = Some (mkEntry 0 0 1000 100 900 [98%N]).
Proof.
  intros s'.
  assert (trim (editedText calibrating) <> []) as Htext by (vm_compute; discriminate).
  pose proof (save_writes_through_old_reference calibrating 1%positive 1%positive
                (mkEntry 0 0 1000 0 1000 []) eq_refl Htext eq_refl eq_refl)
    as (H1 & H2 & H3 & _).
  split; [exact H1 |]. split; [exact H2 | exact H3].
Defined.

(** C10: an offset is applied whatever its size and direction, Save hands
    the buffered bounds to the database and to the in-memory track without
    comparing them with anything, and so there are offsets after which
    Save succeeds (the text being non-empty) with an entry whose
    preciseStartTime exceeds its preciseEndTime, and offsets after which
    it succeeds with a negative preciseStartTime. *)
Theorem calibrated_times_unchecked :
  (forall (s : State) (offset : Z) (isStartTime isForward : bool),
     let X := EditedTime.startTime (editedTime s) in
     let Y := EditedTime.endTime (editedTime s) in
     let delta := if isForward then offset else - offset in
     editedTime (PlayPage.handleTimeOffset offset isStartTime isForward s)
     = if isStartTime then EditedTime.mk (X + delta) Y else EditedTime.mk X (Y + delta))
  /\ (forall s sub r e,
        subtitle s = Some sub -> trim (editedText s) <> [] ->
        entryRefAt (store s) sub (currentSubtitleIndex s) = Some r ->
        entryObjs (store s) !! r = Some e ->
        exists new σ,
          PlayPage.handleSaveSubtitleEdit s
          = (setStore σ s, [MediaDatabaseService_updateSubtitle (snapshot σ new)],
             PlayPage.Awaiting new)
          /\ (preciseStartTime <$> entryAt σ new (currentSubtitleIndex s))
             = Some (EditedTime.startTime (editedTime s))
          /\ (preciseEndTime <$> entryAt σ new (currentSubtitleIndex s))
             = Some (EditedTime.endTime (editedTime s))
          /\ let done := PlayPage.handleSaveSubtitleEdit_resume new true (setStore σ s) in
             done.2 = [message_success_saved]
             /\ subtitle done.1 = Some new /\ store done.1 = σ)
  /\ (exists os new snap saved,
        let s := offsets os (editing [98%N]) in
        let result := PlayPage.handleSaveSubtitleEdit s in
        let done := PlayPage.handleSaveSubtitleEdit_resume new true result.1.1 in
        result.1.2 = [MediaDatabaseService_updateSubtitle (Some snap)]
        /\ result.2 = PlayPage.Awaiting new
        /\ content snap !! 0%nat = Some saved
        /\ done.2 = [message_success_saved]
        /\ (subtitle done.1 ≫= fun sub => entryAt (store done.1) sub 0) = Some saved
        /\ preciseEndTime saved < preciseStartTime saved)
  /\ (exists os new snap saved,
        let s := offsets os (editing [98%N]) in
        let result := PlayPage.handleSaveSubtitleEdit s in
        let done := PlayPage.handleSaveSubtitleEdit_resume new true result.1.1 in
        result.1.2 = [MediaDatabaseService_updateSubtitle (Some snap)]
        /\ result.2 = PlayPage.Awaiting new
        /\ content snap !! 0%nat = Some saved
        /\ done.2 = [message_success_saved]
        /\ (subtitle done.1 ≫= fun sub => entryAt (store done.1) sub 0) = Some saved
        /\ preciseStartTime saved < 0).
Proof.
  split; [| split; [| split]].
  - intros s offset isStartTime isForward. unfold PlayPage.handleTimeOffset.
    destruct isStartTime, isForward; simpl; f_equal; lia.
  - intros s sub r e Hsub Htext Href Hobj.
    destruct (save_runs s sub r e Hsub Htext Href Hobj) as (o & σ & Ho & Hσ & Hrun).
    destruct (save_aliases s sub r e Href o σ Ho Hσ) as [_ Hnew].
    eexists _, σ. split; [exact Hrun |]. rewrite Hnew. simpl. done.
  - exists [(1500, true, true)], 2%positive.
    eexists (mkSnapshot _ _), (mkEntry 0 0 1000 1500 1000 [98%N]).
    vm_compute. repeat split; reflexivity.
  - exists [(700, true, false)], 2%positive.
    eexists (mkSnapshot _ _), (mkEntry 0 0 1000 (-700) 1000 [98%N]).
    vm_compute. repeat split; reflexivity.
Qed.

(** ** The seeking flag in the two variants *)

(** C9, as stated, fails: in the first variant, whose seeked handler does
    not clear the flag, a tick at 1500 ms after a scrub moves currentIndex
    from 0 to 1 and clears the flag; index advancement is not suspended
    and the flag is reset. *)
Lemma scrub_does_not_suspend :
  isSeeking scrubbed = true
  /\ currentSubtitleIndex scrubbed = 0
  /\ currentSubtitleIndex (PlayPage.tick 1500 scrubbed) = 1
  /\ isSeeking (PlayPage.tick 1500 scrubbed) = false.
Proof. vm_compute. repeat split; reflexivity. Qed.

Lemma checkPlayMode_seeking b s :
  isSeeking s = true -> PlayPage.checkPlayMode b s = Normal (true, s).
Proof.
  intros Hseek. unfold PlayPage.checkPlayMode. rewrite Hseek.
  by repeat case_match.
Qed.

(** C9 (amended): the second variant clears the seeking flag on seeked,
    the first sets it again there, so the two handlers never agree.  In
    the first variant the flag stays set until the next tick whose
    containment scan finds an entry: that tick, whatever the mode, makes
    the entry current and clears the flag, while a tick in a gap leaves
    index and flag as they are.  In the second variant a tick does
    nothing while the flag is set. *)
Theorem seeked_variants :
  (forall s, isSeeking (PlayPage2.handleSeeked s) = false)
  /\ (forall s, isSeeking (PlayPage.handleSeeked s) = true)
  /\ (forall s, PlayPage.handleSeeked s <> PlayPage2.handleSeeked s)
  /\ (forall s sub es v,
        isSeeking s = true -> subtitle s = Some sub ->
        entriesOf (store s) sub = Some es -> videoRef s = Some v ->
        let i := Resolver.containing es (currentTimeMs v) in
        PlayPage.handleTimeUpdate s
        = Normal (if decide (i ≠ -1)
                  then setIsSeeking false (setCurrentSubtitleIndex i s)
                  else s))
  /\ (forall s, isSeeking s = true -> PlayPage2.handleTimeUpdate s = Normal s).
Proof.
  split; [done |]. split; [done |]. split; [| split].
  - intros s H. apply (f_equal isSeeking) in H. discriminate H.
  - intros s sub es v Hseek Hsub Hes Hv i.
    unfold PlayPage.handleTimeUpdate. rewrite Hsub, Hv. simpl.
    rewrite checkPlayMode_seeking by done. simpl. rewrite Hes. simpl.
    fold (Resolver.containing es (currentTimeMs v)). fold i.
    by destruct (decide (i ≠ -1)).
  - intros s Hseek. unfold PlayPage2.handleTimeUpdate. by rewrite Hseek.
Qed.

(** The tick at 1500 ms that follows the scrub of the sample session. *)
Lemma seeked_variants_witness :
  PlayPage.handleTimeUpdate (PlayPage.clock 1500 scrubbed)
  = Normal (setIsSeeking false
              (setCurrentSubtitleIndex 1 (PlayPage.clock 1500 scrubbed))).
Proof.
  exact (proj1 (proj2 (proj2 (proj2 seeked_variants)))
           (PlayPage.clock 1500 scrubbed) 1%positive adjacent (mkVideo 1500 true)
           eq_refl eq_refl eq_refl eq_refl).
Defined.

(** ** The progress-persisting hook *)

Section Persist.
Import SubtitleIndexPersist.

Lemma run_app h es es' : run h (es ++ es') = run (run h es) es'.
Proof. apply foldl_app. Qed.

(** A change of index while a write is pending: the cleanup of the
    previous effect cancels the timer and writes the previous index at
    once, then the effect schedules the new one. *)
Lemma armed_render m v h c :
  armed m v h -> c.1 <> v -> 0 <= c.2 < wait ->
  let h' := run h [render m c.1; elapse c.2] in
  armed m c.1 h' /\ writes h' = writes h ++ [(m, v)].
Proof.
  intros (Hfirst & Hdeps & Hclean & left_ & Hleft & Htimer) Hne Hgap. simpl.
  rewrite Hdeps. rewrite decide_False by congruence.
  unfold runCleanup, effect. rewrite Hclean. simpl. rewrite Hfirst. simpl.
  destruct (wait <=? c.2) eqn:Hcmp; [apply Z.leb_le in Hcmp; lia |].
  simpl. repeat split. exists (wait - c.2). split; [lia | done].
Qed.

(** The pending write runs once the quiet period has passed. *)
Lemma armed_quiet m v h :
  armed m v h ->
  let h' := run h [elapse wait] in
  writes h' = writes h ++ [(m, v)] /\ timer h' = None.
Proof.
  intros (Hfirst & Hdeps & Hclean & left_ & Hleft & Htimer). simpl.
  rewrite Htimer. destruct (left_ <=? wait) eqn:Hcmp; [done |].
  apply Z.leb_gt in Hcmp. lia.
Qed.

Lemma armed_burst m changes : forall v h,
  armed m v h -> rapid v changes ->
  let h' := run h (burst m changes ++ [elapse wait]) in
  writes h' = writes h ++ (m, v) :: map (fun c => (m, c.1)) changes
  /\ timer h' = None.
Proof.
  induction changes as [| c rest IH]; intros v h Harmed Hrapid.
  - simpl burst. rewrite app_nil_l. by apply armed_quiet.
  - destruct Hrapid as (Hne & Hgap & Hrest).
    destruct (armed_render m v h c Harmed Hne Hgap) as [Harmed' Hw].
    change (burst m (c :: rest) ++ [elapse wait])
      with ([render m c.1; elapse c.2] ++ (burst m rest ++ [elapse wait])).
    cbv zeta. rewrite run_app.
    destruct (IH c.1 _ Harmed' Hrest) as [Hw' Ht]. cbv zeta in Hw', Ht.
    rewrite Hw', Ht, Hw. rewrite <- app_assoc. done.
Qed.

(** The first change after the mount: nothing is pending and the first
    effect returned no cleanup, so nothing is written yet. *)
Lemma mount_render m v0 c :
  c.1 <> v0 -> 0 <= c.2 < wait ->
  let h' := run (mount m v0) [render m c.1; elapse c.2] in
  armed m c.1 h' /\ writes h' = [].
Proof.
  intros Hne Hgap. simpl. rewrite decide_False by congruence. simpl.
  destruct (wait <=? c.2) eqn:Hcmp; [apply Z.leb_le in Hcmp; lia |].
  simpl. repeat split. exists (wait - c.2). split; [lia | done].
Qed.

(** What the hook does with a burst (C1 is violated by it): of N changes
    of the index, each within the quiet period of the one before, every
    one is written, the first N - 1 at once by the cleanup that runs when
    the next change arrives and the last one by the timer, N writes in
    all and not one.  The second half of C1 holds: a change followed by
    the teardown is written once, at once, and nothing stays scheduled. *)
Theorem burst_writes_every_change m v0 changes :
  rapid v0 changes ->
  (let h := run (mount m v0) (burst m changes ++ [elapse wait]) in
   writes h = map (fun c => (m, c.1)) changes /\ timer h = None)
  /\ (forall v ms, v <> v0 -> 0 <= ms < wait ->
      let h := run (mount m v0) [render m v; elapse ms; unmount] in
      writes h = [(m, v)] /\ timer h = None
      /\ writes (run h [elapse wait]) = [(m, v)]).
Proof.
  intros Hrapid. split.
  - destruct changes as [| c rest].
    + simpl. done.
    + destruct Hrapid as (Hne & Hgap & Hrest).
      destruct (mount_render m v0 c Hne Hgap) as [Harmed Hw].
      change (burst m (c :: rest) ++ [elapse wait])
        with ([render m c.1; elapse c.2] ++ (burst m rest ++ [elapse wait])).
      cbv zeta. rewrite run_app.
      destruct (armed_burst m rest c.1 _ Harmed Hrest) as [Hw' Ht].
      cbv zeta in Hw', Ht. rewrite Hw', Ht, Hw. done.
  - intros v ms Hne Hgap. simpl. rewrite decide_False by congruence. simpl.
    destruct (wait <=? ms) eqn:Hcmp; [apply Z.leb_le in Hcmp; lia |].
    simpl. done.
Qed.

(** Two changes, to 1 and then to 2, 100 ms apart, of medium 7 restored
    at index 0: both are written. *)
Lemma burst_writes_every_change_witness :
  rapid 0 [(1, 100); (2, 100)]
  /\ writes (run (mount 7 0) (burst 7 [(1, 100); (2, 100)] ++ [elapse wait]))
     = [(7, 1); (7, 2)].
Proof.
  assert (rapid 0 [(1, 100); (2, 100)]) as H by (simpl; unfold wait; lia).
  split; [exact H |].
  exact (proj1 (proj1 (burst_writes_every_change 7 0 [(1, 100); (2, 100)] H))).
Defined.

End Persist.

(** * Further properties *)

(** ** Resolver: the directional search on any track *)

Section SearchAny.
Variable entries : list SubtitleEntry.
Variable t : Z.
Variable d : Direction.

(** An answer of the search: [-1], or an index of the track whose entry
    lies in the direction asked for. *)
Let answer (r : Z) : Prop :=
  r = -1 \/ exists e, item entries r = Some e /\ toward d t e.

Lemma searchLoop_safe (n : nat) : forall lo hi res,
  Z.to_nat (hi - lo + 1) = n ->
  0 <= lo -> hi < Z.of_nat (length entries) -> answer res ->
  exists r, Resolver.searchLoop entries t d lo hi res = Normal r /\ answer r.
Proof.
  induction n as [n IH] using lt_wf_ind.
  intros lo hi res Hn Hlo Hhi Hres.
  rewrite searchLoop_step. destruct (decide (lo <= hi)) as [Hle | Hgt]; [| eauto].
  pose proof (mid_bounds lo hi Hle) as Hmid. cbv zeta.
  destruct (item_in_range entries ((lo + hi) `div` 2)) as [e He]; [lia |].
  rewrite He.
  assert (toward d t e -> answer ((lo + hi) `div` 2)) as Hmidans
    by (intros Ht; right; eauto).
  destruct d; simpl in *.
  - destruct (t <? startTime e) eqn:Hcmp.
    + apply Z.ltb_lt in Hcmp. eapply IH; [| reflexivity | | |]; try lia. auto.
    + eapply IH; [| reflexivity | | |]; try lia. done.
  - destruct (startTime e <? t) eqn:Hcmp.
    + apply Z.ltb_lt in Hcmp. eapply IH; [| reflexivity | | |]; try lia. auto.
    + eapply IH; [| reflexivity | | |]; try lia. done.
Qed.
End SearchAny.

(** X1: on every track, sorted or not, and in both directions the search
    returns (it never reads outside the array), and its answer is -1 or
    an index of the track whose entry starts after t (forward) or before
    t (backward). *)
Theorem directional_search_any_track entries t d :
  exists r, Resolver.findSubtitleIndexByTime entries t d = Normal r
    /\ -1 <= r < Z.of_nat (length entries)
    /\ (r <> -1 -> exists e, item entries r = Some e /\ toward d t e).
Proof.
  unfold Resolver.findSubtitleIndexByTime.
  destruct (searchLoop_safe entries t d _ 0 (Z.of_nat (length entries) - 1) (-1)
              eq_refl) as (r & Hr & Hans); [lia | lia | by left |].
  exists r. split; [done |]. destruct Hans as [-> | (e & He & Ht)].
  - split; [lia | done].
  - split; [apply item_range in He; lia | eauto].
Qed.

(** ** Resolver: how the two directions and the scan relate *)

(** X2: on a sorted track, when the backward search answers p and the
    forward search answers n, both found, then p < n, every entry
    strictly between them starts exactly at t, and n = p + 1 when no
    entry starts at t. *)
Theorem directional_order entries t p n :
  sortedByStart entries ->
  Resolver.findSubtitleIndexByTime entries t previous = Normal p ->
  Resolver.findSubtitleIndexByTime entries t next = Normal n ->
  p <> -1 -> n <> -1 ->
  p < n
  /\ (forall j e, p < j < n -> item entries j = Some e -> startTime e = t)
  /\ ((forall j e, item entries j = Some e -> startTime e <> t) -> n = p + 1).
Proof.
  intros Hsorted Hp Hn Hpf Hnf.
  destruct (findSubtitleIndexByTime_previous entries t Hsorted) as (p' & Hp' & Hgp).
  destruct (findSubtitleIndexByTime_next entries t Hsorted) as (n' & Hn' & Hln).
  rewrite Hp in Hp'. rewrite Hn in Hn'. inversion Hp'; inversion Hn'; subst p' n'.
  destruct Hgp as [[? _] | (ep & Hep & Hpt & Hgreatest)]; [done |].
  destruct Hln as [[? _] | (en & Hen & Hnt & Hleast)]; [done |].
  assert (p < n) as Hlt.
  { destruct (decide (p < n)) as [| Hge]; [done |].
    assert (startTime en <= startTime ep)
      by (apply (Hsorted n p); [lia | done | done]).
    lia. }
  assert (forall j e, p < j < n -> item entries j = Some e -> startTime e = t) as Hmid.
  { intros j e Hj He.
    destruct (Z.lt_trichotomy (startTime e) t) as [Hb | [Heq | Ha]]; [| done |].
    - specialize (Hgreatest j e He Hb). lia.
    - specialize (Hleast j e He Ha). lia. }
  split; [done |]. split; [done |].
  intros Hnone. destruct (decide (n = p + 1)) as [| Hne]; [done |].
  destruct (item_in_range entries (p + 1)) as [e He].
  { apply item_range in Hep. apply item_range in Hen. lia. }
  exfalso. apply (Hnone (p + 1) e He). apply (Hmid (p + 1)); [lia | done].
Qed.

(** The two searches on the adjacent track at t = 500. *)
Lemma directional_order_witness :
  Resolver.findSubtitleIndexByTime adjacent 500 previous = Normal 0
  /\ Resolver.findSubtitleIndexByTime adjacent 500 next = Normal 1
  /\ 0 < 1.
Proof.
  assert (sortedByStart adjacent) as Hs by (apply sortedByStart_two; simpl; lia).
  split; [reflexivity |]. split; [reflexivity |].
  exact (proj1 (directional_order adjacent 500 0 1 Hs eq_refl eq_refl
                  ltac:(discriminate) ltac:(discriminate))).
Defined.

(** X3: on a sorted track the containment scan is monotone in time:
    when it finds an entry at t1 and at a later t2, the index found at t2
    is not smaller. *)
Theorem containing_monotone entries t1 t2 :
  sortedByStart entries -> t1 <= t2 ->
  Resolver.containing entries t1 <> -1 -> Resolver.containing entries t2 <> -1 ->
  Resolver.containing entries t1 <= Resolver.containing entries t2.
Proof.
  intros Hsorted Hle H1 H2.
  destruct (containing_spec entries t1) as [[? _] | [(e1 & He1 & Hin1) Hfirst1]]; [done |].
  destruct (containing_spec entries t2) as [[? _] | [(e2 & He2 & Hin2) _]]; [done |].
  set (i1 := Resolver.containing entries t1) in *.
  set (i2 := Resolver.containing entries t2) in *.
  destruct (decide (i1 <= i2)) as [| Hgt]; [done |]. exfalso.
  assert (startTime e2 <= startTime e1)
    by (apply (Hsorted i2 i1); [lia | done | done]).
  assert (~ covers entries t1 i2) as Hnot.
  { intros Hc. apply Hfirst1 in Hc. lia. }
  apply Hnot. exists e2. split; [done | lia].
Qed.

(** The scan on the adjacent track at 500 ms and at 1500 ms. *)
Lemma containing_monotone_witness :
  Resolver.containing adjacent 500 <= Resolver.containing adjacent 1500.
Proof.
  apply containing_monotone;
    [apply sortedByStart_two; simpl; lia | lia | discriminate | discriminate].
Defined.

(** X4: on a sorted track, when the scan finds entry i at t, the forward
    search at t answers -1 or an index after i; the backward search
    answers i or a later index when t is past the start of entry i, and
    -1 or an index before i when t is exactly that start. *)
Theorem directional_around_current entries t i e :
  sortedByStart entries ->
  Resolver.containing entries t = i -> item entries i = Some e ->
  (forall n, Resolver.findSubtitleIndexByTime entries t next = Normal n ->
     n = -1 \/ i < n)
  /\ (forall p, Resolver.findSubtitleIndexByTime entries t previous = Normal p ->
       (startTime e < t -> i <= p) /\ (startTime e = t -> p < i)).
Proof.
  intros Hsorted Hi He.
  assert (startTime e <= t) as Hstart.
  { destruct (containing_spec entries t) as [[Hr _] | [(e' & He' & Hin) _]].
    - rewrite Hi in Hr. subst i. apply item_range in He. lia.
    - rewrite Hi, He in He'. inversion He'; subst e'. lia. }
  split.
  - intros n Hn.
    destruct (findSubtitleIndexByTime_next entries t Hsorted) as (n' & Hn' & Hln).
    rewrite Hn in Hn'. inversion Hn'; subst n'.
    destruct Hln as [[-> _] | (en & Hen & Hnt & _)]; [by left |]. right.
    destruct (decide (i < n)) as [| Hge]; [done |].
    assert (startTime en <= startTime e)
      by (apply (Hsorted n i); [lia | done | done]).
    lia.
  - intros p Hp.
    destruct (findSubtitleIndexByTime_previous entries t Hsorted) as (p' & Hp' & Hgp).
    rewrite Hp in Hp'. inversion Hp'; subst p'. split.
    + intros Hpast. destruct Hgp as [[_ Hall] | (ep & Hep & Hpt & Hgreatest)].
      * specialize (Hall i e He). lia.
      * apply (Hgreatest i e He Hpast).
    + intros Hat. destruct Hgp as [[-> _] | (ep & Hep & Hpt & _)].
      * apply item_range in He. lia.
      * destruct (decide (p < i)) as [| Hge]; [done |].
        assert (startTime e <= startTime ep)
          by (apply (Hsorted i p); [lia | done | done]).
        lia.
Qed.

(** Entry 1 of the adjacent track, found at 1500 ms: the backward search
    there answers 1 itself. *)
Lemma directional_around_current_witness :
  Resolver.containing adjacent 1500 = 1
  /\ Resolver.findSubtitleIndexByTime adjacent 1500 previous = Normal 1
  /\ 1 <= 1.
Proof.
  assert (sortedByStart adjacent) as Hs by (apply sortedByStart_two; simpl; lia).
  split; [reflexivity |]. split; [reflexivity |].
  refine (proj1 (proj2 (directional_around_current adjacent 1500 1
    (mkEntry 1 1000 2000 1000 2000 []) Hs eq_refl eq_refl) 1 eq_refl) _).
  simpl. lia.
Defined.

(** ** Single-loop mode *)

Lemma setVideo_same s v : videoRef s = Some v -> setVideo v s = s.
Proof. intros H. destruct s; simpl in *. by subst. Qed.

Section SingleLoop.
Variables (s : State) (sub : loc) (e : SubtitleEntry).
Hypothesis Hmode : playMode s = SINGLE_LOOP.
Hypothesis Hedit : editMode s = false.
Hypothesis Hrecord : recordingMode s = false.
Hypothesis Hseek : isSeeking s = false.
Hypothesis Hsub : subtitle s = Some sub.
Hypothesis Hentry : entryAt (store s) sub (currentSubtitleIndex s) = Some e.

Lemma singleLoop_check b v :
  PlayPage.checkPlayMode b (setVideo v s)
  = Normal (false,
            setVideo (if preciseEndTime e <=? currentTimeMs v
                      then seek (preciseStartTime e) v else v) s).
Proof.
  unfold PlayPage.checkPlayMode. simpl.
  rewrite Hsub, Hmode, Hedit, Hrecord, Hseek, Hentry. simpl.
  rewrite decide_False by (by eapply entryAt_resolved).
  by destruct (preciseEndTime e <=? currentTimeMs v).
Qed.

Lemma singleLoop_tick t v :
  PlayPage.tick t (setVideo v s)
  = setVideo (mkVideo (if preciseEndTime e <=? t then preciseStartTime e else t)
                (paused v)) s.
Proof.
  unfold PlayPage.tick, PlayPage.clock, PlayPage.handleTimeUpdate. simpl.
  rewrite Hsub. simpl. rewrite setVideo_setVideo, singleLoop_check. simpl.
  by destruct (preciseEndTime e <=? t).
Qed.

Lemma singleLoop_ticks ts : forall v,
  exists w, PlayPage.ticks ts (setVideo v s) = setVideo w s /\ paused w = paused v.
Proof.
  unfold PlayPage.ticks. induction ts as [| t ts IH]; intros v; simpl; [eauto |].
  rewrite singleLoop_tick. destruct (IH (mkVideo
    (if preciseEndTime e <=? t then preciseStartTime e else t) (paused v)))
    as (w & -> & Hw). eauto.
Qed.
End SingleLoop.



(** ** Bounded playback in an edit session *)

Lemma offsets_buffer os : forall s, offsets os s = setEditedTime (editedTime (offsets os s)) s.
Proof.
  unfold offsets. induction os as [| o os IH]; intros s; simpl.
  - by destruct s.
  - rewrite IH. unfold PlayPage.handleTimeOffset.
    destruct o.1.2; simpl; rewrite IH; reflexivity.
Qed.

Section EditSession.
Variables (s : State) (sub : loc).
Hypothesis Hedit : editMode s = true.
Hypothesis Hseek : isSeeking s = false.
Hypothesis Hsub : subtitle s = Some sub.
Hypothesis Hindex : currentSubtitleIndex s <> -1.

Lemma edit_check b v :
  PlayPage.checkPlayMode b (setVideo v s)
  = Normal (false,
            setVideo (let w := if b then seek (EditedTime.startTime (editedTime s)) v
                               else v in
                      if EditedTime.endTime (editedTime s) <=? currentTimeMs v
                      then pause w else w) s).
Proof.
  unfold PlayPage.checkPlayMode. simpl.
  rewrite Hsub, Hedit, Hseek. simpl. rewrite decide_False by done. reflexivity.
Qed.

Lemma edit_tick t v :
  PlayPage.tick t (setVideo v s)
  = setVideo (mkVideo t ((EditedTime.endTime (editedTime s) <=? t) || paused v)) s.
Proof.
  unfold PlayPage.tick, PlayPage.clock, PlayPage.handleTimeUpdate. simpl.
  rewrite Hsub. simpl. rewrite setVideo_setVideo, edit_check. simpl.
  by destruct (EditedTime.endTime (editedTime s) <=? t).
Qed.

Lemma edit_ticks ts : forall v,
  exists w, PlayPage.ticks ts (setVideo v s) = setVideo w s.
Proof.
  unfold PlayPage.ticks. induction ts as [| t ts IH]; intros v; simpl; [eauto |].
  rewrite edit_tick. apply IH.
Qed.
End EditSession.

(** X6: in an edit session (editMode set, currentIndex resolved, no scrub
    pending) the mode rules are those of the edit buffer, whatever the
    play mode, whether a record session is open too, and even when the
    current entry is missing: after any offsets and any ticks, a tick at
    t leaves the media paused exactly when it was paused before or t has
    reached the buffered end as the offsets left it, no tick changes
    currentIndex, and a resume seeks to the buffered start and plays. *)
Theorem edit_session_bounded s sub v :
  editMode s = true -> isSeeking s = false ->
  subtitle s = Some sub -> videoRef s = Some v -> currentSubtitleIndex s <> -1 ->
  forall os,
    let s' := offsets os s in
    (forall ts, exists w,
        PlayPage.ticks ts s' = setVideo w s'
        /\ forall t,
             PlayPage.tick t (PlayPage.ticks ts s')
             = setVideo (mkVideo t ((EditedTime.endTime (editedTime s') <=? t)
                                    || paused w)) s')
    /\ (isPlaying s = false ->
        PlayPage.handleTogglePlayPause s'
        = Normal (setVideo (mkVideo (EditedTime.startTime (editedTime s')) false) s')).
Proof.
  intros Hedit Hseek Hsub Hv Hindex os s'.
  assert (editMode s' = true /\ isSeeking s' = false /\ subtitle s' = Some sub
          /\ videoRef s' = Some v /\ currentSubtitleIndex s' <> -1
          /\ isPlaying s' = isPlaying s) as (Hedit' & Hseek' & Hsub' & Hv' & Hindex' & Hp').
  { subst s'. rewrite offsets_buffer. simpl. done. }
  clearbody s'. rewrite <- (setVideo_same s' v Hv'). split.
  - intros ts.
    destruct (edit_ticks s' sub Hedit' Hseek' Hsub' Hindex' ts v) as [w ->].
    exists w. split; [done |]. intros t. by rewrite (edit_tick s' sub).
  - intros Hplaying. unfold PlayPage.handleTogglePlayPause. simpl.
    rewrite Hp', Hplaying, (edit_check s' sub) by done. simpl.
    by destruct (EditedTime.endTime (editedTime s') <=? currentTimeMs v).
Qed.

(** The edit session on entry 0 of the adjacent track with the end moved
    back by 400 ms: a tick at 700 ms leaves the media paused at 700. *)
Lemma edit_session_bounded_witness :
  let s := PlayPage.settle (editing [98%N])
             (PlayPage.handleTogglePlayPause (editing [98%N])) in
  videoRef (PlayPage.tick 700 (PlayPage.ticks [] (offsets [(400, false, false)] s)))
  = Some (mkVideo 700 true).
Proof.
  intros s.
  destruct (proj1 (edit_session_bounded s 1%positive (mkVideo 0 false) eq_refl eq_refl
                     eq_refl eq_refl ltac:(discriminate) [(400, false, false)]) [])
    as (w & Hw & Htick).
  rewrite Htick. reflexivity.
Defined.

(** ** Bounded playback in a record-along session *)

Section RecordSession.
Variables (s : State) (sub : loc) (e : SubtitleEntry).
Hypothesis Hedit : editMode s = false.
Hypothesis Hrecord : recordingMode s = true.
Hypothesis Hseek : isSeeking s = false.
Hypothesis Hsub : subtitle s = Some sub.
Hypothesis Hentry : entryAt (store s) sub (currentSubtitleIndex s) = Some e.

Lemma record_check b v :
  PlayPage.checkPlayMode b (setVideo v s)
  = Normal (false,
            setVideo (let w := if b then seek (preciseStartTime e) v else v in
                      if preciseEndTime e <=? currentTimeMs v then pause w else w) s).
Proof.
  unfold PlayPage.checkPlayMode. simpl.
  rewrite Hsub, Hedit, Hrecord, Hseek, Hentry. simpl.
  rewrite decide_False by (by eapply entryAt_resolved). reflexivity.
Qed.

Lemma record_tick t v :
  PlayPage.tick t (setVideo v s)
  = setVideo (mkVideo t ((preciseEndTime e <=? t) || paused v)) s.
Proof.
  unfold PlayPage.tick, PlayPage.clock, PlayPage.handleTimeUpdate. simpl.
  rewrite Hsub. simpl. rewrite setVideo_setVideo, record_check. simpl.
  by destruct (preciseEndTime e <=? t).
Qed.

Lemma record_ticks ts : forall v,
  exists w, PlayPage.ticks ts (setVideo v s) = setVideo w s
            /\ (paused v = true -> paused w = true).
Proof.
  unfold PlayPage.ticks. induction ts as [| t ts IH]; intros v; simpl; [eauto |].
  rewrite record_tick.
  destruct (IH (mkVideo t ((preciseEndTime e <=? t) || paused v))) as (w & -> & Hw).
  exists w. split; [done |]. intros Hp. apply Hw. simpl. rewrite Hp.
  apply orb_true_r.
Qed.
End RecordSession.

(** X7: in a record-along session (recordingMode set, no edit session,
    currentIndex resolved, no scrub pending) the bounds are the entry's
    precise bounds, whatever the play mode and whatever the edit buffer
    holds: a tick at t leaves the media paused exactly when it was paused
    before or t >= preciseEndTime, no tick changes currentIndex, and a
    resume seeks to preciseStartTime and plays. *)
Theorem record_session_bounded s sub v e :
  editMode s = false -> recordingMode s = true -> isSeeking s = false ->
  subtitle s = Some sub -> videoRef s = Some v ->
  entryAt (store s) sub (currentSubtitleIndex s) = Some e ->
  (forall ts, exists w,
      PlayPage.ticks ts s = setVideo w s
      /\ forall t,
           PlayPage.tick t (PlayPage.ticks ts s)
           = setVideo (mkVideo t ((preciseEndTime e <=? t) || paused w)) s)
  /\ (isPlaying s = false ->
      PlayPage.handleTogglePlayPause s
      = Normal (setVideo (mkVideo (preciseStartTime e) false) s)).
Proof.
  intros Hedit Hrecord Hseek Hsub Hv Hentry.
  rewrite <- (setVideo_same s v Hv). split.
  - intros ts.
    destruct (record_ticks s sub e Hedit Hrecord Hseek Hsub Hentry ts v) as (w & -> & _).
    exists w. split; [done |]. intros t. by rewrite (record_tick s sub e).
  - intros Hplaying. simpl in Hplaying. unfold PlayPage.handleTogglePlayPause. simpl.
    rewrite Hplaying, (record_check s sub e) by done. simpl.
    by destruct (preciseEndTime e <=? currentTimeMs v).
Qed.



(** Entry 1 of the adjacent track in a record-along session: a tick at
    2000 ms pauses the media. *)
Lemma record_session_bounded_witness :
  let s := PlayPage.settle (loaded adjacent)
             (PlayPage.handleEnterRecordingMode 1 (loaded adjacent)) in
  let s := PlayPage.settle s (PlayPage.handleTogglePlayPause s) in
  videoRef (PlayPage.tick 2000 (PlayPage.ticks [] s)) = Some (mkVideo 2000 true).
Proof.
  intros s0 s.
  destruct (proj1 (record_session_bounded s 1%positive (mkVideo 1000 false)
                     (mkEntry 1 1000 2000 1000 2000 []) eq_refl eq_refl eq_refl
                     eq_refl eq_refl eq_refl) []) as (w & Hw & Htick).
  rewrite Htick. reflexivity.
Defined.

(** ** The two variants when no scrub is pending *)

Lemma setIsSeeking_same s b : isSeeking s = b -> setIsSeeking b s = s.
Proof. intros H. destruct s; simpl in *. by subst. Qed.

Lemma checkPlayMode_agree b s :
  isSeeking s = false -> PlayPage.checkPlayMode b s = PlayPage2.checkPlayMode b s.
Proof.
  intros Hseek. unfold PlayPage.checkPlayMode, PlayPage2.checkPlayMode.
  by rewrite Hseek.
Qed.

(** X9: while the seeking flag is clear the two variants of the page do
    the same: checkPlayMode, the tick handler, the play/pause toggle and
    the previous/next skips give the same result in the first variant as
    in the second. *)
Theorem variants_agree_without_scrub s :
  isSeeking s = false ->
  (forall b, PlayPage.checkPlayMode b s = PlayPage2.checkPlayMode b s)
  /\ PlayPage.handleTimeUpdate s = PlayPage2.handleTimeUpdate s
  /\ PlayPage.handleTogglePlayPause s = PlayPage2.handleTogglePlayPause s
  /\ (forall closure,
        PlayPage.handlePreviousSubtitle closure s
        = PlayPage2.handlePreviousSubtitle closure s
        /\ PlayPage.handleNextSubtitle closure s
           = PlayPage2.handleNextSubtitle closure s).
Proof.
  intros Hseek. split; [intros b; by apply checkPlayMode_agree |].
  split; [| split].
  - unfold PlayPage.handleTimeUpdate, PlayPage2.handleTimeUpdate.
    rewrite Hseek, <- checkPlayMode_agree by done.
    destruct (subtitle s) as [sub |]; [| done].
    destruct (videoRef s) as [v |]; [| done]. simpl.
    destruct (PlayPage.checkPlayMode false s) as [[u s1] |] eqn:Hc; [| done]. simpl.
    destruct u; [| done]. simpl.
    destruct (entriesOf (store s1) sub) as [es |]; [| done]. simpl.
    case_decide; [| done]. f_equal. apply setIsSeeking_same. simpl.
    apply checkPlayMode_video in Hc as [-> | [w ->]]; done.
  - unfold PlayPage.handleTogglePlayPause, PlayPage2.handleTogglePlayPause.
    by rewrite checkPlayMode_agree.
  - intros closure.
    unfold PlayPage.handlePreviousSubtitle, PlayPage2.handlePreviousSubtitle,
      PlayPage.handleNextSubtitle, PlayPage2.handleNextSubtitle, PlayPage.jump.
    rewrite Hseek. simpl.
    destruct (videoRef s) as [v |]; [| done].
    destruct (subtitle closure) as [sub |]; [| done]. split.
    + case_decide; [done |]. simpl.
      rewrite (setIsSeeking_same (setCurrentSubtitleIndex _ s) false) by done. done.
    + destruct (entryRefs (store s) sub); [| done].
      case_decide; [done |]. simpl.
      rewrite (setIsSeeking_same (setCurrentSubtitleIndex _ s) false) by done. done.
Qed.

(** The tick at 500 ms on the loaded adjacent track, in both variants. *)
Lemma variants_agree_without_scrub_witness :
  PlayPage.handleTimeUpdate (PlayPage.clock 500 (loaded adjacent))
  = PlayPage2.handleTimeUpdate (PlayPage.clock 500 (loaded adjacent)).
Proof.
  exact (proj1 (proj2 (variants_agree_without_scrub
                         (PlayPage.clock 500 (loaded adjacent)) eq_refl))).
Defined.

(** ** Skipping to the previous and the next entry *)

(** A reader that walks the array finds, at each index, the entry that
    [subtitle.entries[i]] gives. *)
Lemma entriesOf_entryAt σ sub es :
  entriesOf σ sub = Some es ->
  (forall i, entryAt σ sub i = item es i)
  /\ exists refs, entryRefs σ sub = Some refs /\ length refs = length es.
Proof.
  unfold entriesOf, entryAt, entryRefAt. intros H.
  destruct (entryRefs σ sub) as [refs |]; simpl in *; [| done].
  apply mapM_Some_1 in H. split; [| exists refs; split; [done | by eapply Forall2_length]].
  intros i. unfold item. destruct (decide (0 <= i)); simpl; [| done].
  destruct (refs !! Z.to_nat i) as [r |] eqn:Hr; simpl.
  - destruct (Forall2_lookup_l _ _ _ _ _ H Hr) as (e & He & Hre). by rewrite He.
  - symmetry. apply lookup_ge_None. apply lookup_ge_None in Hr.
    apply Forall2_length in H. lia.
Qed.



(** X11: a skip while a scrub is pending goes by the playback time t, on
    a sorted track: next takes the first entry that starts after t,
    previous the last entry that starts before t, whatever index the
    page shows; the entry found becomes current, the flag is cleared and
    the media plays from the entry's startTime.  When the search finds
    nothing the skip changes nothing, and the flag stays set. *)
Theorem skip_during_scrub closure s sub v es :
  isSeeking s = true -> subtitle closure = Some sub -> videoRef s = Some v ->
  entriesOf (store s) sub = Some es -> sortedByStart es ->
  let t := currentTimeMs v in
  let at_ k e :=
    setVideo (mkVideo (startTime e) false)
      (setIsSeeking false (setCurrentSubtitleIndex k s)) in
  (exists n, leastAfter es t n
     /\ ((n = -1 /\ PlayPage.handleNextSubtitle closure s = Done s)
         \/ exists e, item es n = Some e
              /\ PlayPage.handleNextSubtitle closure s = Done (at_ n e)))
  /\ (exists p, greatestBefore es t p
       /\ ((p = -1 /\ PlayPage.handlePreviousSubtitle closure s = Done s)
           \/ exists e, item es p = Some e
                /\ PlayPage.handlePreviousSubtitle closure s = Done (at_ p e))).
Proof.
  intros Hseek Hsub Hv Hes Hsorted t at_.
  destruct (entriesOf_entryAt _ _ _ Hes) as (Hat & _).
  assert (forall k e, item es k = Some e ->
            PlayPage.jump true sub k v (setCurrentSubtitleIndex k s) = Done (at_ k e))
    as Hjump.
  { intros k e He. unfold PlayPage.jump. simpl. by rewrite Hat, He. }
  split.
  - destruct (findSubtitleIndexByTime_next es t Hsorted) as (n & Hn & Hln).
    exists n. split; [done |].
    unfold PlayPage.handleNextSubtitle. rewrite Hv, Hsub, Hseek, Hes. fold t.
    rewrite Hn. destruct Hln as [[-> _] | (e & He & _)].
    + left. done.
    + right. exists e. split; [done |].
      rewrite decide_False by (apply item_range in He; lia). by apply Hjump.
  - destruct (findSubtitleIndexByTime_previous es t Hsorted) as (p & Hp & Hgp).
    exists p. split; [done |].
    unfold PlayPage.handlePreviousSubtitle. rewrite Hv, Hsub, Hseek, Hes. fold t.
    rewrite Hp. destruct Hgp as [[-> _] | (e & He & _)].
    + left. done.
    + right. exists e. split; [done |].
      rewrite decide_False by (apply item_range in He; lia). by apply Hjump.
Qed.

(** A scrub to 1500 ms on the adjacent track, then previous: the search
    answers entry 1, in which the time lies. *)
Lemma skip_during_scrub_witness :
  let s := PlayPage.clock 1500 scrubbed in
  sortedByStart adjacent
  /\ exists p, greatestBefore adjacent 1500 p
       /\ ((p = -1 /\ PlayPage.handlePreviousSubtitle s s = Done s)
           \/ exists e, item adjacent p = Some e
                /\ PlayPage.handlePreviousSubtitle s s
                   = Done (setVideo (mkVideo (startTime e) false)
                             (setIsSeeking false (setCurrentSubtitleIndex p s)))).
Proof.
  intros s.
  assert (sortedByStart adjacent) as Hs by (apply sortedByStart_two; simpl; lia).
  split; [exact Hs |].
  exact (proj2 (skip_during_scrub s s 1%positive (mkVideo 1500 true) adjacent
                  eq_refl eq_refl eq_refl eq_refl Hs)).
Defined.

(** ** Saving: what it changes and what it keeps *)

(** Rewriting one entry object of an array without repeated references
    rewrites one position of what a reader finds. *)
Lemma mapM_insert (m : gmap loc SubtitleEntry) refs es (k : nat) r x :
  NoDup refs -> mapM (fun r => m !! r) refs = Some es -> refs !! k = Some r ->
  mapM (fun r' => <[r := x]> m !! r') refs = Some (<[k := x]> es).
Proof.
  intros Hnd Hes Hk. apply mapM_Some_1 in Hes. apply mapM_Some_2.
  apply Forall2_lookup. intros j.
  pose proof (Forall2_length _ _ _ Hes) as Hlen.
  destruct (decide (j = k)) as [-> | Hjk].
  - rewrite Hk, list_lookup_insert_eq by (apply lookup_lt_Some in Hk; lia).
    constructor. apply lookup_insert_eq.
  - rewrite list_lookup_insert_ne by done.
    destruct (refs !! j) as [r' |] eqn:Hj.
    + destruct (Forall2_lookup_l _ _ _ _ _ Hes Hj) as (y & Hy & Hry).
      rewrite Hy. constructor. rewrite lookup_insert_ne; [done |].
      intros <-. apply Hjk. by eapply NoDup_lookup.
    + apply lookup_ge_None in Hj. rewrite (proj2 (lookup_ge_None es j)) by lia.
      constructor.
Qed.

(** What Save hands to the database and leaves in the store. *)
Lemma save_content s sub refs es e :
  subtitle s = Some sub -> trim (editedText s) <> [] ->
  entryRefs (store s) sub = Some refs -> NoDup refs ->
  entriesOf (store s) sub = Some es ->
  item es (currentSubtitleIndex s) = Some e ->
  let saved :=
    mkEntry (index e) (startTime e) (endTime e)
      (EditedTime.startTime (editedTime s)) (EditedTime.endTime (editedTime s))
      (trim (editedText s)) in
  let es' := <[Z.to_nat (currentSubtitleIndex s) := saved]> es in
  let result := PlayPage.handleSaveSubtitleEdit s in
  exists new o,
    result.2 = PlayPage.Awaiting new
    /\ result.1.2 = [MediaDatabaseService_updateSubtitle (Some (mkSnapshot o es'))]
    /\ subtitleObjs (store s) !! sub = Some o
    /\ entriesOf (store result.1.1) sub = Some es'
    /\ entriesOf (store result.1.1) new = Some es'
    /\ entryRefs (store result.1.1) sub = Some refs
    /\ subtitleObjs (store result.1.1) !! sub = Some o
    /\ result.1.1 = setStore (store result.1.1) s.
Proof.
  intros Hsub Htext Hrefs Hnd Hes He saved es' result.
  destruct (entriesOf_entryAt _ _ _ Hes) as (Hat & _).
  specialize (Hat (currentSubtitleIndex s)). rewrite He in Hat.
  unfold entryAt in Hat.
  destruct (entryRefAt (store s) sub (currentSubtitleIndex s)) as [r |] eqn:Href;
    simpl in Hat; [| done].
  destruct (save_runs s sub r e Hsub Htext Href Hat) as (o & σ & Ho & Hσ & Hrun).
  assert (refs !! Z.to_nat (currentSubtitleIndex s) = Some r) as Hk.
  { unfold entryRefAt in Href. rewrite Hrefs in Href. simpl in Href.
    by apply item_Some in Href as [_ ?]. }
  assert (arrays (store s) !! entries o = Some refs) as Harr.
  { unfold entryRefs in Hrefs. rewrite Ho in Hrefs. done. }
  assert (mapM (fun r' => entryObjs σ !! r') refs = Some es') as Hmap.
  { subst σ. simpl. apply mapM_insert; [done | | done].
    unfold entriesOf in Hes. rewrite Hrefs in Hes. done. }
  assert (entriesOf σ sub = Some es') as Hold.
  { unfold entriesOf, entryRefs. replace (subtitleObjs σ !! sub) with (Some o)
      by (subst σ; simpl; rewrite lookup_insert_ne by (by eapply save_new_fresh);
          done).
    simpl. replace (arrays σ) with (arrays (store s)) by (by subst σ).
    rewrite Harr. done. }
  assert (entriesOf σ (fresh (dom (subtitleObjs (store s)))) = Some es') as Hnew.
  { unfold entriesOf, entryRefs.
    replace (subtitleObjs σ !! fresh (dom (subtitleObjs (store s)))) with (Some o)
      by (subst σ; simpl; by rewrite lookup_insert_eq).
    simpl. replace (arrays σ) with (arrays (store s)) by (by subst σ).
    rewrite Harr. done. }
  subst result. rewrite Hrun. simpl.
  exists (fresh (dom (subtitleObjs (store s)))), o.
  split; [done |]. split.
  - unfold snapshot. rewrite Hnew.
    replace (subtitleObjs σ !! fresh (dom (subtitleObjs (store s)))) with (Some o)
      by (subst σ; simpl; by rewrite lookup_insert_eq).
    done.
  - assert (subtitleObjs σ !! sub = Some o) as Ho'
      by (subst σ; simpl; rewrite lookup_insert_ne by (by eapply save_new_fresh);
          done).
    split; [done |]. split; [done |]. split; [done |]. split; [| done].
    unfold entryRefs. rewrite Ho'.
    simpl. replace (arrays σ) with (arrays (store s)) by (by subst σ). done.
Qed.


(** X12: a Save that passes validation rewrites one position of the
    track and nothing else, provided the entries array holds each entry
    object once: what a reader finds afterwards, through the old
    reference as through the new one, and what the database is handed,
    is the track before with entry currentIndex replaced; the new entry
    has the index, startTime and endTime of the old one, the buffered
    precise bounds and the trimmed text. *)
Theorem save_changes_one_entry s sub refs es e :
  subtitle s = Some sub -> trim (editedText s) <> [] ->
  entryRefs (store s) sub = Some refs -> NoDup refs ->
  entriesOf (store s) sub = Some es ->
  item es (currentSubtitleIndex s) = Some e ->
  let saved :=
    mkEntry (index e) (startTime e) (endTime e)
      (EditedTime.startTime (editedTime s)) (EditedTime.endTime (editedTime s))
      (trim (editedText s)) in
  let es' := <[Z.to_nat (currentSubtitleIndex s) := saved]> es in
  let result := PlayPage.handleSaveSubtitleEdit s in
  exists new o,
    result.2 = PlayPage.Awaiting new
    /\ result.1.2 = [MediaDatabaseService_updateSubtitle (Some (mkSnapshot o es'))]
    /\ subtitleObjs (store s) !! sub = Some o
    /\ entriesOf (store result.1.1) sub = Some es'
    /\ entriesOf (store result.1.1) new = Some es'
    /\ length es' = length es.
Proof.
  intros Hsub Htext Hrefs Hnd Hes He saved es' result.
  destruct (save_content s sub refs es e Hsub Htext Hrefs Hnd Hes He)
    as (new & o & H1 & H2 & H3 & H4 & H5 & _).
  exists new, o. repeat split; try done. apply length_insert.
Qed.

(** The save of the sample calibration: entry 0 is replaced, entry 1 is
    kept. *)
Lemma save_changes_one_entry_witness :
  entriesOf (store (PlayPage.handleSaveSubtitleEdit calibrating).1.1) 1%positive
  = Some [mkEntry 0 0 1000 100 900 [98%N]; mkEntry 1 1000 2000 1000 2000 []].
Proof.
  assert (trim (editedText calibrating) <> []) as Htext by (vm_compute; discriminate).
  assert (NoDup [1%positive; 2%positive]) as Hnd
    by (apply NoDup_cons; split; [by intros ?%list_elem_of_singleton |
        apply NoDup_singleton]).
  destruct (save_changes_one_entry calibrating 1%positive [1%positive; 2%positive]
              adjacent (mkEntry 0 0 1000 0 1000 []) eq_refl Htext eq_refl Hnd eq_refl
              eq_refl) as (new & o & _ & _ & _ & Hold & _).
  exact Hold.
Defined.



(** ** The page as a whole *)

Lemma handle_store e c :
  e <> Session.saveSubtitleEdit ->
  store (after (Session.handle e c).1) = store (Session.page c).
Proof.
  intros Hne. destruct c as [s aw]. destruct e; simpl; try done.
  - unfold PlayPage.handleTimeUpdate, PlayPage.clock.
    destruct (PlayPage.checkPlayMode false _) as [[u s1] |] eqn:Hc.
    + apply checkPlayMode_video in Hc.
      run_completion; destruct Hc as [? | [w ?]]; simplify_eq; done.
    + run_completion; done.
  - unfold PlayPage.handleLoadedMetadata. run_completion; done.
  - unfold PlayPage.handlePreviousSubtitle, PlayPage.jump. run_completion; done.
  - unfold PlayPage.handleNextSubtitle, PlayPage.jump. run_completion; done.
  - unfold PlayPage.handleSubtitleClick, PlayPage.jump. run_completion; done.
  - unfold PlayPage.handleTogglePlayPause.
    destruct (PlayPage.checkPlayMode true s) as [[u s1] |] eqn:Hc.
    + apply checkPlayMode_video in Hc.
      run_completion; destruct Hc as [? | [w ?]]; simplify_eq; done.
    + run_completion; done.
  - unfold PlayPage.handleEnterEditMode. run_completion; done.
  - unfold PlayPage.handleSaveSubtitleEdit_resume. run_completion; done.
  - unfold PlayPage.handleEnterRecordingMode. run_completion; done.
Qed.

Lemma handle_subtitle e c :
  (forall k ok, e <> Session.databaseAnswer k ok) ->
  subtitle (after (Session.handle e c).1) = subtitle (Session.page c).
Proof.
  intros Hne. destruct c as [s aw]. destruct e; simpl; try done.
  - unfold PlayPage.handleTimeUpdate, PlayPage.clock.
    destruct (PlayPage.checkPlayMode false _) as [[u s1] |] eqn:Hc.
    + apply checkPlayMode_video in Hc.
      run_completion; destruct Hc as [? | [w ?]]; simplify_eq; done.
    + run_completion; done.
  - unfold PlayPage.handleLoadedMetadata. run_completion; done.
  - unfold PlayPage.handlePreviousSubtitle, PlayPage.jump. run_completion; done.
  - unfold PlayPage.handleNextSubtitle, PlayPage.jump. run_completion; done.
  - unfold PlayPage.handleSubtitleClick, PlayPage.jump. run_completion; done.
  - unfold PlayPage.handleTogglePlayPause.
    destruct (PlayPage.checkPlayMode true s) as [[u s1] |] eqn:Hc.
    + apply checkPlayMode_video in Hc.
      run_completion; destruct Hc as [? | [w ?]]; simplify_eq; done.
    + run_completion; done.
  - unfold PlayPage.handleEnterEditMode. run_completion; done.
  - unfold PlayPage.handleSaveSubtitleEdit, spread. run_completion; done.
  - by specialize (Hne k succeeded).
  - unfold PlayPage.handleEnterRecordingMode. run_completion; done.
Qed.


Lemma findIndex_range {A} (p : A -> bool) (l : list A) :
  -1 <= Resolver.findIndex p l < Z.of_nat (length l).
Proof.
  unfold Resolver.findIndex.
  destruct (findIndexFrom_spec p l 0) as [[-> _] | (k & x & -> & Hk & _)]; [lia | lia |].
  apply lookup_lt_Some in Hk. lia.
Qed.

Section Sound.
Variables (refs : list loc) (c : Session.Config) (sub : loc) (v : Video).
Hypothesis Hsound : sound refs c.
Hypothesis Hsub : subtitle (Session.page c) = Some sub.
Hypothesis Hv : videoRef (Session.page c) = Some v.

Lemma sound_refs : entryRefs (store (Session.page c)) sub = Some refs.
Proof.
  destruct Hsound as ((sub' & Hsub' & Hrefs) & _). rewrite Hsub in Hsub'.
  by inversion Hsub'; subst.
Qed.

Lemma sound_entry i :
  0 <= i < Z.of_nat (length refs) ->
  exists e, entryAt (store (Session.page c)) sub i = Some e.
Proof.
  intros Hi. unfold entryAt, entryRefAt. rewrite sound_refs. simpl.
  destruct (item_in_range refs i Hi) as [r Hr]. rewrite Hr. simpl.
  destruct Hsound as (_ & _ & Hobjs & _).
  apply item_Some in Hr as [_ Hr]. apply Hobjs. by eapply list_elem_of_lookup_2.
Qed.

Lemma sound_entries :
  exists es, entriesOf (store (Session.page c)) sub = Some es
             /\ length es = length refs.
Proof.
  unfold entriesOf. rewrite sound_refs. simpl.
  destruct Hsound as (_ & _ & Hobjs & _).
  destruct (mapM_is_Some_2 (fun r => entryObjs (store (Session.page c)) !! r) refs)
    as [es Hes].
  { apply Forall_forall. intros r Hr. by apply Hobjs. }
  exists es. split; [done |]. symmetry. by eapply length_mapM.
Qed.

Lemma sound_frame s' :
  store s' = store (Session.page c) -> subtitle s' = subtitle (Session.page c) ->
  is_Some (videoRef s') ->
  -1 <= currentSubtitleIndex s' < Z.of_nat (length refs) ->
  sound refs (Session.mkConfig s' (Session.awaiting c)).
Proof.
  intros Hst Hsb Hvid Hidx.
  destruct Hsound as ((sub' & Hsub' & Hrefs) & Haw & Hobjs & _ & _).
  unfold sound. simpl. rewrite Hst, Hsb. repeat split; eauto; lia.
Qed.

Lemma sound_index : -1 <= currentSubtitleIndex (Session.page c) < Z.of_nat (length refs).
Proof. by destruct Hsound as (_ & _ & _ & _ & ?). Qed.

Lemma checkPlayMode_sound b :
  exists u s1, PlayPage.checkPlayMode b (Session.page c) = Normal (u, s1)
    /\ (s1 = Session.page c \/ exists w, s1 = setVideo w (Session.page c)).
Proof.
  pose proof sound_index as Hidx.
  unfold PlayPage.checkPlayMode. rewrite Hsub, Hv.
  destruct (decide (currentSubtitleIndex (Session.page c) = -1)); [eauto |].
  destruct (sound_entry (currentSubtitleIndex (Session.page c))) as [e He]; [lia |].
  rewrite He. run_completion; eexists _, _; (split; [reflexivity |]); eauto.
Qed.
End Sound.

(** Closing a case of [handle_sound]: the handler returned a state that
    differs from the one before in the media element, the index and the
    flags only. *)
Ltac sound_done Hsound :=
  eexists; split; [reflexivity |];
  apply (sound_frame _ _ Hsound); simpl; eauto; lia.

Lemma handle_sound_tick refs s aw t :
  sound refs (Session.mkConfig s aw) ->
  exists s', Session.ofCompletion (PlayPage.clock t s)
               (PlayPage.handleTimeUpdate (PlayPage.clock t s)) = Done s'
    /\ sound refs (Session.mkConfig s' aw).
Proof.
  intros Hsound.
  pose proof Hsound as ((sub & Hsub & Hrefs) & Haw & Hobjs & [v Hv] & Hidx).
  simpl in *. unfold PlayPage.clock. rewrite Hv.
  set (s1 := setVideo (seek t v) s).
  assert (sound refs (Session.mkConfig s1 aw)) as Hsound1
    by (apply (sound_frame _ _ Hsound); simpl; eauto).
  destruct (checkPlayMode_sound refs _ sub (seek t v) Hsound1 Hsub eq_refl false)
    as (u & s2 & Hc & Hs2).
  destruct (sound_entries refs _ sub Hsound1 Hsub) as (es & Hes & Hlen).
  unfold PlayPage.handleTimeUpdate. simpl in *. rewrite Hsub, Hc. simpl.
  assert (store s2 = store s /\ subtitle s2 = subtitle s /\ is_Some (videoRef s2)
          /\ currentSubtitleIndex s2 = currentSubtitleIndex s) as (Hst & Hsb & Hvd & Hix).
  { destruct Hs2 as [-> | [w ->]]; simpl; eauto. }
  destruct u; simpl.
  - rewrite Hst. simpl in Hes. rewrite Hes. simpl.
    pose proof (findIndex_range (Resolver.contains t) es) as Hrange.
    case_decide; sound_done Hsound.
  - sound_done Hsound.
Qed.

Lemma jump_sound refs s aw sub v b k :
  sound refs (Session.mkConfig s aw) -> subtitle s = Some sub ->
  0 <= k < Z.of_nat (length refs) ->
  forall j,
  exists s', PlayPage.jump b sub k v (setCurrentSubtitleIndex j s) = Done s'
    /\ (-1 <= j < Z.of_nat (length refs) -> sound refs (Session.mkConfig s' aw)).
Proof.
  intros Hsound Hsub Hk j.
  destruct (sound_entry refs _ sub Hsound Hsub k Hk) as [e He].
  unfold PlayPage.jump. simpl in *. rewrite He.
  eexists. split; [reflexivity |]. intros Hj.
  apply (sound_frame _ _ Hsound); destruct b; simpl; eauto.
Qed.

Lemma handle_sound_skip refs s aw :
  sound refs (Session.mkConfig s aw) ->
  (exists s', PlayPage.handlePreviousSubtitle s s = Done s'
     /\ sound refs (Session.mkConfig s' aw))
  /\ (exists s', PlayPage.handleNextSubtitle s s = Done s'
       /\ sound refs (Session.mkConfig s' aw)).
Proof.
  intros Hsound.
  pose proof Hsound as ((sub & Hsub & Hrefs) & Haw & Hobjs & [v Hv] & Hidx).
  simpl in *.
  destruct (sound_entries refs _ sub Hsound Hsub) as (es & Hes & Hlen). simpl in Hes.
  assert (forall d, exists r,
            Resolver.findSubtitleIndexByTime es (currentTimeMs v) d = Normal r
            /\ (r = -1 \/ 0 <= r < Z.of_nat (length refs))) as Hsearch.
  { intros d. unfold Resolver.findSubtitleIndexByTime.
    destruct (searchLoop_safe es (currentTimeMs v) d _ 0 (Z.of_nat (length es) - 1) (-1)
                eq_refl) as (r & Hr & Hans); [lia | lia | by left |].
    exists r. split; [done |]. destruct Hans as [-> | (e & He & _)]; [by left |].
    right. apply item_range in He. lia. }
  unfold PlayPage.handlePreviousSubtitle, PlayPage.handleNextSubtitle.
  rewrite Hv, Hsub, Hes, Hrefs. split.
  - destruct (isSeeking s).
    + destruct (Hsearch previous) as (r & -> & [-> | Hr]).
      * rewrite decide_True by done. eexists. split; [reflexivity | done].
      * rewrite decide_False by lia.
        destruct (jump_sound refs s aw sub v true r Hsound Hsub Hr r) as (s' & -> & Hs').
        exists s'. split; [done |]. apply Hs'. lia.
    + case_decide; [eexists; split; [reflexivity | done] |].
      destruct (jump_sound refs s aw sub v true (currentSubtitleIndex s - 1) Hsound Hsub
                  ltac:(lia) (currentSubtitleIndex s - 1)) as (s' & -> & Hs').
      exists s'. split; [done |]. apply Hs'. lia.
  - destruct (isSeeking s).
    + destruct (Hsearch next) as (r & -> & [-> | Hr]).
      * rewrite decide_True by done. eexists. split; [reflexivity | done].
      * rewrite decide_False by lia.
        destruct (jump_sound refs s aw sub v true r Hsound Hsub Hr r) as (s' & -> & Hs').
        exists s'. split; [done |]. apply Hs'. lia.
    + case_decide; [eexists; split; [reflexivity | done] |].
      destruct (jump_sound refs s aw sub v true (currentSubtitleIndex s + 1) Hsound Hsub
                  ltac:(lia) (currentSubtitleIndex s + 1)) as (s' & -> & Hs').
      exists s'. split; [done |]. apply Hs'. lia.
Qed.

Lemma handle_sound_save refs s aw :
  sound refs (Session.mkConfig s aw) ->
  let r := PlayPage.handleSaveSubtitleEdit s in
  sound refs (Session.mkConfig r.1.1
                match r.2 with
                | PlayPage.Awaiting updatedSubtitle => aw ++ [updatedSubtitle]
                | PlayPage.Returned => aw
                end).
Proof.
  intros Hsound.
  pose proof Hsound as ((sub & Hsub & Hrefs) & Haw & Hobjs & Hvid & Hidx).
  cbv zeta. simpl in Hsub, Hrefs, Haw, Hobjs, Hvid, Hidx.
  destruct (decide (currentSubtitleIndex s = -1)) as [Hi | Hi];
    [unfold PlayPage.handleSaveSubtitleEdit; rewrite Hsub, decide_True by done; done |].
  destruct (decide (trim (editedText s) = [])) as [Hb | Hb];
    [unfold PlayPage.handleSaveSubtitleEdit;
     rewrite Hsub, decide_False, decide_True by done; done |].
  destruct (item_in_range refs (currentSubtitleIndex s)) as [r Hr]; [lia |].
  assert (entryRefAt (store s) sub (currentSubtitleIndex s) = Some r) as Href
    by (unfold entryRefAt; rewrite Hrefs; done).
  destruct (Hobjs r) as [e He].
  { apply item_Some in Hr as [_ Hr]. by eapply list_elem_of_lookup_2. }
  destruct (save_runs s sub r e Hsub Hb Href He) as (o & σ & Ho & Hσ & Hrun).
  rewrite Hrun. simpl.
  pose proof (save_new_fresh s sub r Href) as Hfresh.
  assert (forall p, is_Some (subtitleObjs (store s) !! p) ->
            entryRefs σ p = entryRefs (store s) p) as Hkeep.
  { intros p Hp. unfold entryRefs. subst σ. simpl.
    rewrite lookup_insert_ne; [done |]. intros <-.
    apply elem_of_dom in Hp. by apply is_fresh in Hp. }
  assert (forall p, entryRefs (store s) p = Some refs ->
            is_Some (subtitleObjs (store s) !! p)) as Hobj.
  { intros p Hp. unfold entryRefs in Hp.
    destruct (subtitleObjs (store s) !! p); [by eexists | done]. }
  unfold sound. simpl. split; [| split; [| split; [| split]]].
  - exists sub. split; [done |]. rewrite Hkeep by eauto. done.
  - intros new [Hnew | ->%list_elem_of_singleton]%elem_of_app.
    + rewrite Hkeep by eauto. by apply Haw.
    + unfold entryRefs in *. subst σ. simpl. rewrite lookup_insert_eq.
      rewrite Ho in Hrefs. done.
  - intros r' Hr'. subst σ. simpl.
    destruct (decide (r = r')) as [<- | Hne].
    + rewrite lookup_insert_eq. by eexists.
    + rewrite lookup_insert_ne by done. by apply Hobjs.
  - done.
  - done.
Qed.

Lemma handle_sound refs c e :
  sound refs c -> inTrack (Z.of_nat (length refs)) e ->
  exists s', (Session.handle e c).1 = Done s'
    /\ sound refs (Session.mkConfig s' (Session.handle e c).2).
Proof.
  intros Hsound Hin. destruct c as [s aw].
  pose proof Hsound as ((sub & Hsub & Hrefs) & Haw & Hobjs & [v Hv] & Hidx).
  simpl in Hsub, Hrefs, Haw, Hobjs, Hv, Hidx.
  destruct e; simpl in Hin |- *; try (sound_done Hsound).
  - by apply handle_sound_tick.
  - unfold PlayPage.handleLoadedMetadata. rewrite Hv, Hsub.
    case_decide; [sound_done Hsound |]. case_decide; [sound_done Hsound |].
    destruct (sound_entry refs _ sub Hsound Hsub savedSubtitleIndex) as [e He]; [lia |].
    simpl in He. rewrite He. simpl. sound_done Hsound.
  - by apply handle_sound_skip.
  - by apply handle_sound_skip.
  - unfold PlayPage.handleSubtitleClick. rewrite Hv, Hsub.
    rewrite decide_False by lia.
    destruct (jump_sound refs s aw sub v false subtitleIndex Hsound Hsub Hin
                subtitleIndex) as (s' & -> & Hs').
    exists s'. split; [done |]. apply Hs'. lia.
  - unfold PlayPage.handleTogglePlayPause. rewrite Hv.
    destruct (isPlaying s); [sound_done Hsound |].
    destruct (checkPlayMode_sound refs _ sub v Hsound Hsub Hv true)
      as (u & s1 & Hc & Hs1).
    simpl in Hc. rewrite Hc. simpl.
    destruct Hs1 as [-> | [w ->]]; simpl; [rewrite Hv |]; simpl; sound_done Hsound.
  - unfold PlayPage.handleEnterEditMode. rewrite Hsub, Hv.
    rewrite decide_False by lia.
    destruct (sound_entry refs _ sub Hsound Hsub subtitleIndex Hin) as [e He].
    simpl in He. rewrite He. simpl. sound_done Hsound.
  - eexists. split; [reflexivity |]. by apply handle_sound_save.
  - destruct (aw !! k) as [new |] eqn:Hk; simpl; [| sound_done Hsound].
    eexists. split; [reflexivity |].
    assert (forall p, p ∈ delete k aw -> p ∈ aw) as Hdel.
    { intros p Hp. apply list_elem_of_lookup in Hp as [j Hj].
      destruct (decide (j < k)%nat).
      - rewrite list_lookup_delete_lt in Hj by done. by eapply list_elem_of_lookup_2.
      - rewrite list_lookup_delete_ge in Hj by lia. by eapply list_elem_of_lookup_2. }
    destruct succeeded; simpl.
    + unfold sound. simpl. repeat split; eauto; try lia.
      exists new. split; [done |]. apply Haw. by eapply list_elem_of_lookup_2.
    + unfold sound. simpl. repeat split; eauto; lia.
  - unfold PlayPage.handleEnterRecordingMode. rewrite Hsub, Hv.
    rewrite decide_False by lia.
    destruct (sound_entry refs _ sub Hsound Hsub subtitleIndex Hin) as [e He].
    simpl in He. rewrite He. simpl. sound_done Hsound.
Qed.



(** ** The progress-persisting hook on any events *)

Section PersistAny.
Import SubtitleIndexPersist.
Variables m v : Z.

(** X16: the index found at the mount is not written.  As long as no
    render brings other dependencies, whatever time passes and whether
    the component unmounts or not, the hook stays as it was mounted: no
    write, no timer. *)
Theorem mount_value_not_written es :
  Forall (fun e => ~ changes (m, v) e) es ->
  run (mount m v) es = mount m v
  /\ writes (run (mount m v) es) = [] /\ timer (run (mount m v) es) = None.
Proof.
  intros Hes. assert (run (mount m v) es = mount m v) as ->; [| done].
  unfold run. induction es as [| e es IH]; simpl; [done |].
  apply Forall_cons in Hes as [He Hes].
  assert (step (mount m v) e = mount m v) as ->; [| by apply IH].
  destruct e as [m' i | ms |]; simpl; [| done | done].
  case_decide as Hd; [done |]. exfalso. apply He. exists m', i. done.
Qed.

(** The hook in use: either untouched since the mount, or with the
    cleanup of the last effect closed over the current dependencies. *)
Let inUse (h : Hook) : Prop :=
  isFirstRender h = false
  /\ ((cleanup h = None /\ deps h = (m, v) /\ timer h = None /\ writes h = [])
      \/ cleanup h = Some (deps h)).

Lemma inUse_run es : forall h,
  inUse h -> Forall mounted es ->
  inUse (run h es)
  /\ deps (run h es) = latest (deps h) es
  /\ (cleanup h = Some (deps h) \/ Exists (changes (m, v)) es ->
      cleanup (run h es) = Some (deps (run h es))).
Proof.
  unfold run. induction es as [| e es IH]; intros h Hin Hes; simpl.
  - split; [done |]. split; [done |]. intros [? | Hex]; [done | inversion Hex].
  - apply Forall_cons in Hes as [He Hes]. destruct Hin as [Hfirst Hcases].
    assert (inUse (step h e) /\ deps (step h e)
              = match e with render m' i => (m', i) | _ => deps h end
            /\ (cleanup h = Some (deps h) \/ changes (m, v) e ->
                cleanup (step h e) = Some (deps (step h e)))) as (Hin' & Hdeps & Hcl).
    { destruct e as [m' i | ms |]; simpl.
      - case_decide as Hd.
        + split; [done |]. split; [done |].
          intros [? | (? & ? & [= <- <-] & Hne)]; [done |].
          destruct Hcases as [(_ & Hdm & _) | ?]; [congruence | done].
        + unfold effect, runCleanup.
          destruct (cleanup h); simpl; rewrite Hfirst; simpl;
            (split; [split; [reflexivity | right; reflexivity] |]);
            (split; [reflexivity | intros _; reflexivity]).
      - assert (forall h', isFirstRender h' = false -> cleanup h' = cleanup h ->
                  deps h' = deps h -> cleanup h = Some (deps h) ->
                  inUse h' /\ deps h' = deps h
                  /\ (cleanup h = Some (deps h) \/ changes (m, v) (elapse ms) ->
                      cleanup h' = Some (deps h'))) as Hkeep.
        { intros h' H1 H2 H3 H4. split; [split; [done | right; congruence] |].
          split; [done |]. intros _. congruence. }
        destruct (timer h) as [[left_ args] |] eqn:Ht.
        + destruct Hcases as [(_ & _ & Hnone & _) | Hc]; [congruence |].
          destruct (left_ <=? ms); by apply Hkeep.
        + split; [split; [done |];
                  destruct Hcases as [(? & ? & _ & ?) | ?]; [left | right]; done |].
          split; [done |]. intros [? | (? & ? & ? & _)]; done.
      - by destruct He. }
    destruct (IH (step h e) Hin' Hes) as (Hin'' & Hdeps'' & Hcl'').
    split; [done |]. split.
    + rewrite Hdeps'', Hdeps. by destruct e.
    + intros [Hc | [Hc | Hc]%Exists_cons]; apply Hcl''; auto.
Qed.

Lemma mount_inUse : inUse (mount m v).
Proof. split; [done |]. left. done. Qed.

(** X17: no update is lost.  Whatever renders and pauses came before it,
    the teardown cancels the pending write and writes at once the
    dependencies of the last render: once some render has brought other
    dependencies than those of the mount, the last write after the
    teardown carries the latest medium and index, and no timer is left,
    so nothing is written later. *)
Theorem teardown_writes_latest es :
  Forall mounted es -> Exists (changes (m, v)) es ->
  let h := run (mount m v) (es ++ [unmount]) in
  last (writes h) = Some (latest (m, v) es)
  /\ timer h = None
  /\ forall ms, writes (run h [elapse ms]) = writes h.
Proof.
  intros Hes Hex. cbv zeta. rewrite run_app.
  destruct (inUse_run es (mount m v) mount_inUse Hes) as (_ & Hdeps & Hcl).
  specialize (Hcl (or_intror Hex)). simpl in Hdeps.
  simpl. unfold runCleanup. rewrite Hcl, Hdeps. simpl.
  split; [by rewrite last_snoc | done].
Qed.

End PersistAny.

(** The hook mounted at index 3 of medium 7, re-rendered without a
    change, left alone for two seconds and unmounted. *)
Lemma mount_value_not_written_witness :
  SubtitleIndexPersist.writes
    (SubtitleIndexPersist.run (SubtitleIndexPersist.mount 7 3)
       [SubtitleIndexPersist.render 7 3; SubtitleIndexPersist.elapse 2000;
        SubtitleIndexPersist.unmount]) = [].
Proof.
  refine (proj1 (proj2 (mount_value_not_written 7 3 _ _))).
  repeat constructor; intros (m & i & He & Hne); inversion He; congruence.
Defined.

(** The index goes from 0 to 1 and, 100 ms later, to 2; the component
    unmounts 50 ms after that. *)
Lemma teardown_writes_latest_witness :
  last (SubtitleIndexPersist.writes
          (SubtitleIndexPersist.run (SubtitleIndexPersist.mount 7 0)
             ([SubtitleIndexPersist.render 7 1; SubtitleIndexPersist.elapse 100;
               SubtitleIndexPersist.render 7 2; SubtitleIndexPersist.elapse 50]
              ++ [SubtitleIndexPersist.unmount])))
  = Some (7, 2).
Proof.
  refine (proj1 (teardown_writes_latest 7 0
                   [SubtitleIndexPersist.render 7 1; SubtitleIndexPersist.elapse 100;
                    SubtitleIndexPersist.render 7 2; SubtitleIndexPersist.elapse 50]
                   _ _)).
  - repeat constructor; discriminate.
  - apply Exists_cons_hd. exists 7, 1. split; [done | discriminate].
Defined.

Section PersistWrites.
Import SubtitleIndexPersist.

(** After the events [es]: every pair written, scheduled or held by the
    cleanup was brought by a render of [es], and each render pays for at
    most two writes, the scheduled one and the one of the cleanup. *)
Let paid (es : list Event) (h : Hook) : Prop :=
  (forall w, w ∈ writes h -> render w.1 w.2 ∈ es)
  /\ (forall l a, timer h = Some (l, a) -> render a.1 a.2 ∈ es)
  /\ (forall d, cleanup h = Some d -> render d.1 d.2 ∈ es)
  /\ (length (writes h) + (if timer h is Some _ then 1 else 0)
      + (if cleanup h is Some _ then 1 else 0)
      <= 2 * renders es)%nat.

Lemma renders_app es es' : renders (es ++ es') = (renders es + renders es')%nat.
Proof.
  induction es as [| e es IH]; simpl; [done |]. destruct e; simpl; lia.
Qed.

Lemma paid_step pre h e :
  paid pre h -> mounted e -> paid (pre ++ [e]) (step h e).
Proof.
  intros (Hw & Ht & Hc & Hn) He. unfold paid. rewrite renders_app.
  assert (forall x, x ∈ pre -> x ∈ pre ++ [e]) as Hin by (intros; set_solver).
  destruct e as [m i | ms |]; simpl.
  - case_decide as Hd.
    + repeat split; [by eauto .. |]. lia.
    + assert (render m i ∈ pre ++ [render m i]) as Hlast by set_solver.
      unfold effect, runCleanup.
      destruct (cleanup h) as [d |] eqn:Hcl; simpl;
        destruct (isFirstRender h); simpl.
      * repeat split.
        -- intros w [Hw' | ->%list_elem_of_singleton]%elem_of_app; eauto.
        -- done.
        -- done.
        -- rewrite length_app. simpl. destruct (timer h); lia.
      * repeat split.
        -- intros w [Hw' | ->%list_elem_of_singleton]%elem_of_app; eauto.
        -- by intros l a [= <- <-].
        -- by intros d' [= <-].
        -- rewrite length_app. simpl. destruct (timer h); lia.
      * repeat split; [by eauto .. | done |]. destruct (timer h); lia.
      * repeat split; [by eauto | by intros l a [= <- <-] | by intros d' [= <-] |].
        destruct (timer h); lia.
  - destruct (timer h) as [[left_ args] |] eqn:Htm.
    + destruct (left_ <=? ms); simpl.
      * repeat split.
        -- intros w [Hw' | ->%list_elem_of_singleton]%elem_of_app; eauto.
        -- done.
        -- eauto.
        -- rewrite length_app. simpl. lia.
      * repeat split; [by eauto | | by eauto | lia].
        intros l a [= <- <-]. eauto.
    + rewrite Htm. repeat split; [by eauto | done | by eauto | lia].
  - by destruct He.
Qed.

Lemma paid_run es : forall pre h,
  paid pre h -> Forall mounted es -> paid (pre ++ es) (run h es).
Proof.
  unfold run. induction es as [| e es IH]; intros pre h Hp Hes; simpl.
  - by rewrite app_nil_r.
  - apply Forall_cons in Hes as [He Hes].
    replace (pre ++ e :: es) with ((pre ++ [e]) ++ es) by (by rewrite <- app_assoc).
    apply IH; [by apply paid_step | done].
Qed.

(** X18: the hook writes nothing it was not given and at most twice per
    render.  From the mount to the teardown, every pair written is the
    pair of dependencies of one of the renders that came after the
    mount, and the number of writes, those of the teardown included, is
    at most twice the number of those renders. *)
Theorem writes_come_from_renders m v es :
  Forall mounted es ->
  let h := run (mount m v) (es ++ [unmount]) in
  (forall w, w ∈ writes h -> render w.1 w.2 ∈ es)
  /\ (length (writes h) <= 2 * renders es)%nat.
Proof.
  intros Hes. cbv zeta. rewrite run_app.
  assert (paid [] (mount m v)) as H0.
  { repeat split; simpl; try done. intros w Hw. inversion Hw. }
  destruct (paid_run es [] (mount m v) H0 Hes) as (Hw & Ht & Hc & Hn).
  simpl in *. unfold runCleanup.
  destruct (cleanup (run (mount m v) es)) as [d |] eqn:Hcl; simpl.
  - split.
    + intros w [Hw' | ->%list_elem_of_singleton]%elem_of_app; eauto.
    + rewrite length_app. simpl. destruct (timer (run (mount m v) es)); lia.
  - split; [done |]. destruct (timer (run (mount m v) es)); lia.
Qed.
End PersistWrites.

(** One change to index 1, a second of quiet, then the teardown: the
    timer writes (7, 1) and the teardown writes it again. *)
Lemma writes_come_from_renders_witness :
  SubtitleIndexPersist.writes
    (SubtitleIndexPersist.run (SubtitleIndexPersist.mount 7 0)
       ([SubtitleIndexPersist.render 7 1; SubtitleIndexPersist.elapse 1000]
        ++ [SubtitleIndexPersist.unmount]))
  = [(7, 1); (7, 1)]
  /\ (2 <= 2 * renders [SubtitleIndexPersist.render 7 1;
                        SubtitleIndexPersist.elapse 1000])%nat.
Proof.
  split; [reflexivity |].
  refine (proj2 (writes_come_from_renders 7 0
                   [SubtitleIndexPersist.render 7 1; SubtitleIndexPersist.elapse 1000]
                   _)).
  repeat constructor; discriminate.
Defined.

(** ** Restoring the saved progress *)

(** X19: when the media's metadata arrive on a page that shows no entry
    yet, the saved index becomes current and the media is put at the
    startTime of that entry, paused or playing as it was; a later
    loadedmetadata, whatever index it brings, does nothing; and the hook,
    mounted on the page's first index -1, takes the restored index for a
    change and writes it back once the quiet period has passed. *)
Theorem restore_progress s sub v e saved m :
  subtitle s = Some sub -> videoRef s = Some v -> currentSubtitleIndex s = -1 ->
  entryAt (store s) sub saved = Some e ->
  let s' := setCurrentSubtitleIndex saved (setVideo (seek (startTime e) v) s) in
  PlayPage.handleLoadedMetadata saved s = Normal s'
  /\ (forall saved', PlayPage.handleLoadedMetadata saved' s' = Normal s')
  /\ SubtitleIndexPersist.writes
       (SubtitleIndexPersist.run
          (SubtitleIndexPersist.mount m (currentSubtitleIndex s))
          [SubtitleIndexPersist.render m (currentSubtitleIndex s');
           SubtitleIndexPersist.elapse SubtitleIndexPersist.wait])
     = [(m, saved)].
Proof.
  intros Hsub Hv Hidx He s'.
  pose proof (entryAt_resolved _ _ _ _ He) as Hsaved.
  assert (0 <= saved) as Hpos.
  { unfold entryAt, entryRefAt in He.
    destruct (entryRefs (store s) sub) as [refs |]; simpl in He; [| done].
    destruct (item refs saved) eqn:Hi; [| done]. by apply item_Some in Hi as [? _]. }
  split; [| split].
  - unfold PlayPage.handleLoadedMetadata. rewrite Hv, Hsub, He, Hidx.
    rewrite decide_False by lia. rewrite decide_False by (intros H; by apply H).
    reflexivity.
  - intros saved'. unfold PlayPage.handleLoadedMetadata. simpl. rewrite Hsub.
    case_decide; [done |]. by rewrite decide_True.
  - rewrite Hidx. simpl. rewrite decide_False by congruence. reflexivity.
Qed.

(** The saved index 1 restored on the adjacent track, for medium 7. *)
Lemma restore_progress_witness :
  PlayPage.handleLoadedMetadata 1 (loaded adjacent)
  = Normal (setCurrentSubtitleIndex 1 (setVideo (mkVideo 1000 true) (loaded adjacent)))
  /\ SubtitleIndexPersist.writes
       (SubtitleIndexPersist.run (SubtitleIndexPersist.mount 7 (-1))
          [SubtitleIndexPersist.render 7 1;
           SubtitleIndexPersist.elapse SubtitleIndexPersist.wait])
     = [(7, 1)].
Proof.
  destruct (restore_progress (loaded adjacent) 1%positive (mkVideo 0 true)
              (mkEntry 1 1000 2000 1000 2000 []) 1 7 eq_refl eq_refl eq_refl eq_refl)
    as (H1 & _ & H3).
  split; [exact H1 | exact H3].
Defined.

(** ** The subtitle list: following the current entry *)

Section ListFacts.
Import SubtitleList.

(** X20: the floating button is shown exactly while the list is in
    manual-scroll mode: after any events from the mount, the state
    showScrollToCurrentButton equals the ref isManualScroll. *)
Theorem button_shows_manual_mode ready i es :
  let l := run (mount ready i) es in
  showScrollToCurrentButton l = isManualScroll l
  /\ listRef l = ready.
Proof.
  cbv zeta.
  assert (forall l, showScrollToCurrentButton l = isManualScroll l ->
            showScrollToCurrentButton (effect l) = isManualScroll (effect l)
            /\ listRef (effect l) = listRef l) as Heffect.
  { intros l Hl. unfold effect. destruct (listRef l) eqn:Hr; simpl;
      [| split; congruence].
    destruct (isManualScroll l) eqn:Hm; simpl; split; congruence. }
  assert (showScrollToCurrentButton (mount ready i) = isManualScroll (mount ready i)
          /\ listRef (mount ready i) = ready) as H0.
  { unfold mount. destruct (Heffect (mkList i false false false ready None []) eq_refl).
    done. }
  revert H0. generalize (mount ready i). unfold run.
  induction es as [| e es IH]; intros l [Hl Hr]; simpl; [done |].
  apply IH. destruct e; simpl.
  - case_decide; [done |].
    destruct (Heffect (mkList i0 (isSubtitleIndexChanged l) (isManualScroll l)
                         (showScrollToCurrentButton l) (listRef l) None (scrolled l))
                Hl) as [? ?]. simpl in *. split; congruence.
  - destruct (Heffect (cancelFrame l) Hl) as [? ?]. simpl in *. split; congruence.
  - unfold runFrame. by destruct (frame l).
  - unfold handleScroll. by destruct (isSubtitleIndexChanged l).
  - unfold handleScrollToCurrent.
    by destruct (bool_decide (currentIndex l ≠ -1) && listRef l).
Qed.

(** X21: once the list is in manual-scroll mode it no longer follows the
    playback.  With no frame pending, no change of index or of subtitle
    reference, no frame and no further scroll calls scrollToRow or leaves
    the mode; only the click on the button leaves it, hides the button
    and scrolls to the index then current when there is one and the list
    is mounted. *)
Theorem manual_scroll_stops_following l es :
  isManualScroll l = true -> frame l = None ->
  Forall (fun e => e <> scrollToCurrent) es ->
  let l' := run l es in
  scrolled l' = scrolled l /\ isManualScroll l' = true /\ frame l' = None
  /\ isManualScroll (step l' scrollToCurrent) = false
  /\ showScrollToCurrentButton (step l' scrollToCurrent) = false
  /\ scrolled (step l' scrollToCurrent)
     = scrolled l ++ (if bool_decide (currentIndex l' ≠ -1) && listRef l'
                      then [currentIndex l'] else []).
Proof.
  intros Hm Hf Hes. cbv zeta.
  assert (scrolled (run l es) = scrolled l /\ isManualScroll (run l es) = true
          /\ frame (run l es) = None) as (Hs & Hm' & Hf').
  { revert l Hm Hf. unfold run.
    induction es as [| e es IH]; intros l Hm Hf; simpl; [done |].
    apply Forall_cons in Hes as [He Hes].
    assert (scrolled (step l e) = scrolled l /\ isManualScroll (step l e) = true
            /\ frame (step l e) = None) as (Hs1 & Hm1 & Hf1).
    { destruct e; simpl.
      - case_decide; [done |]. unfold effect. simpl. rewrite Hm.
        by destruct (listRef l).
      - unfold effect. simpl. rewrite Hm. by destruct (listRef l).
      - unfold runFrame. by rewrite Hf.
      - unfold handleScroll. by destruct (isSubtitleIndexChanged l).
      - done. }
    destruct (IH Hes (step l e) Hm1 Hf1) as (? & ? & ?).
    split; [congruence | done]. }
  split; [done |]. split; [done |]. split; [done |].
  simpl. unfold handleScrollToCurrent.
  destruct (bool_decide (currentIndex (run l es) ≠ -1) && listRef (run l es));
    simpl; rewrite ?Hs, ?app_nil_r; done.
Qed.

(** The list mounted on entry 0 and scrolled by hand after its first
    frame and the scroll event of it: two changes of index and their
    frames scroll nothing, the click on the button scrolls to entry 2. *)
Lemma manual_scroll_stops_following_witness :
  let l := run (mount true 0) [animationFrame; scroll; scroll] in
  isManualScroll l = true
  /\ scrolled (run l [indexChange 1; animationFrame; indexChange 2; animationFrame])
     = scrolled l
  /\ scrolled (step (run l [indexChange 1; animationFrame; indexChange 2;
                            animationFrame]) scrollToCurrent)
     = scrolled l ++ [2].
Proof.
  intros l.
  assert (Forall (fun e => e <> scrollToCurrent)
            [indexChange 1; animationFrame; indexChange 2; animationFrame]) as Hes
    by (repeat constructor; discriminate).
  destruct (manual_scroll_stops_following l _ eq_refl eq_refl Hes)
    as (H1 & _ & _ & _ & _ & H2).
  split; [reflexivity |]. split; [exact H1 | exact H2].
Defined.
End ListFacts.

Section ListFollow.
Import SubtitleList.

(** The list after a change of index in following mode: the frame of the
    change before is cancelled and one for the new index is requested. *)
Lemma follow_change l j :
  isManualScroll l = false -> listRef l = true -> j <> currentIndex l ->
  step l (indexChange j)
  = mkList j (isSubtitleIndexChanged l) false false true
      (if decide (j ≠ -1) then Some j else None) (scrolled l).
Proof.
  intros Hm Hr Hj. simpl. rewrite decide_False by done.
  unfold effect. simpl. rewrite Hr, Hm. simpl. reflexivity.
Qed.

Lemma last_cons_default (k : Z) js : last (k :: js) = Some (default k (last js)).
Proof.
  revert k. induction js as [| k' js IH]; intros k; [done |].
  rewrite last_cons_cons, IH. simpl. reflexivity.
Qed.

Lemma follow_changes js : forall l j,
  isManualScroll l = false -> listRef l = true -> successive (currentIndex l) (j :: js) ->
  run l (indexChange <$> j :: js)
  = mkList (default j (last js)) (isSubtitleIndexChanged l) false false true
      (if decide (default j (last js) ≠ -1) then Some (default j (last js)) else None)
      (scrolled l).
Proof.
  unfold run. induction js as [| k js IH]; intros l j Hm Hr [Hj Hrest].
  - simpl foldl. by apply follow_change.
  - change (foldl step l (indexChange <$> j :: k :: js))
      with (foldl step (step l (indexChange j)) (indexChange <$> k :: js)).
    rewrite (follow_change l j) by done.
    rewrite IH by done. simpl.
    by rewrite (last_cons_default k js).
Qed.

(** X22: while the list follows the playback (no manual scroll, the list
    mounted), of the index changes that arrive before the next animation
    frame only the last one scrolls: the frame calls scrollToRow once,
    for the last index, or not at all when that index is -1; and the
    scroll event that this call fires does not put the list into
    manual-scroll mode. *)
Theorem follow_scrolls_to_last l j js :
  isManualScroll l = false -> listRef l = true ->
  successive (currentIndex l) (j :: js) ->
  let k := default j (last js) in
  let l' := run l ((indexChange <$> j :: js) ++ [animationFrame]) in
  scrolled l' = scrolled l ++ (if decide (k ≠ -1) then [k] else [])
  /\ currentIndex l' = k
  /\ (k <> -1 -> isManualScroll (step l' scroll) = false
                 /\ scrolled (step l' scroll) = scrolled l').
Proof.
  intros Hm Hr Hsucc k l'. subst l'. unfold run. rewrite foldl_app.
  fold (run l (indexChange <$> j :: js)). rewrite (follow_changes js l j) by done.
  fold k. simpl. unfold runFrame. simpl.
  destruct (decide (k ≠ -1)) as [Hk | Hk]; simpl.
  - split; [done |]. split; [done |]. intros _. done.
  - rewrite app_nil_r. split; [done |]. split; [done |]. intros Hk'. by destruct Hk.
Qed.

(** Three changes of index before the first frame on a list that shows
    entry 0 and has scrolled there: the frame scrolls to entry 3 only. *)
Lemma follow_scrolls_to_last_witness :
  let l := run (mount true 0) [animationFrame; scroll] in
  scrolled (run l ((indexChange <$> [1; 2; 3]) ++ [animationFrame])) = [0; 3].
Proof.
  intros l.
  exact (proj1 (follow_scrolls_to_last l 1 [2; 3] eq_refl eq_refl
                  ltac:(simpl; repeat split; discriminate))).
Defined.
End ListFollow.

(** ** A scrub in the second variant *)

(** X23: in the second variant a scrub suspends the page and leaves no
    trace.  Between seeking and seeked a tick only moves the media clock:
    it never pauses, seeks back or changes currentIndex, whatever the
    mode or session; and after seeked the page is the page before the
    scrub with the clock where the ticks left it. *)
Theorem scrub_suspends_second_variant s v ts :
  isSeeking s = false -> videoRef s = Some v ->
  let during := foldl (fun s t => PlayPage2.tick t s) (PlayPage2.handleSeeking s) ts in
  during = setIsSeeking true (setVideo (mkVideo (default (currentTimeMs v) (last ts))
                                          (paused v)) s)
  /\ PlayPage2.handleSeeked during
     = setVideo (mkVideo (default (currentTimeMs v) (last ts)) (paused v)) s.
Proof.
  intros Hseek Hv during.
  assert (during = setIsSeeking true
            (setVideo (mkVideo (default (currentTimeMs v) (last ts)) (paused v)) s))
    as ->.
  { subst during. unfold PlayPage2.handleSeeking.
    rewrite <- (setVideo_same s v Hv) at 1. clear Hv. revert v.
    induction ts as [| t ts IH]; intros v.
    - simpl. by destruct v.
    - simpl foldl.
      assert (PlayPage2.tick t (setIsSeeking true (setVideo v s))
              = setIsSeeking true (setVideo (seek t v) s)) as -> by reflexivity.
      rewrite IH, last_cons_default. reflexivity. }
  split; [done |]. unfold PlayPage2.handleSeeked.
  destruct s; simpl in *. by subst.
Qed.

(** A scrub on the adjacent track in single-pause mode, with ticks at
    300 ms and at 1700 ms while it lasts. *)
Lemma scrub_suspends_second_variant_witness :
  let s := PlayPage2.tick 500 (setPlayMode SINGLE_PAUSE (loaded adjacent)) in
  PlayPage2.handleSeeked
    (foldl (fun s t => PlayPage2.tick t s) (PlayPage2.handleSeeking s) [300; 1700])
  = setVideo (mkVideo 1700 true) s.
Proof.
  intros s.
  exact (proj2 (scrub_suspends_second_variant s (mkVideo 500 true) [300; 1700]
                  eq_refl eq_refl)).
Defined.

(** ** Retrying a Save, and the sum of the offsets *)

(** X24: a Save whose write the database refuses can be repeated.  The
    refusal leaves the page in its edit session, buffer and text as they
    were, and the Save repeated then hands the database the same track
    as the first one and leaves the same entries in the store. *)
Theorem save_retry_same s sub refs es e :
  subtitle s = Some sub -> trim (editedText s) <> [] ->
  entryRefs (store s) sub = Some refs -> NoDup refs ->
  entriesOf (store s) sub = Some es ->
  item es (currentSubtitleIndex s) = Some e ->
  let first := PlayPage.handleSaveSubtitleEdit s in
  exists new,
    first.2 = PlayPage.Awaiting new
    /\ let refused := PlayPage.handleSaveSubtitleEdit_resume new false first.1.1 in
       let again := PlayPage.handleSaveSubtitleEdit refused.1 in
       refused.2 = [message_error_saveFailed]
       /\ editMode refused.1 = editMode s
       /\ editedTime refused.1 = editedTime s
       /\ editedText refused.1 = editedText s
       /\ again.1.2 = first.1.2
       /\ entriesOf (store again.1.1) sub = entriesOf (store first.1.1) sub.
Proof.
  intros Hsub Htext Hrefs Hnd Hes He first.
  destruct (save_content s sub refs es e Hsub Htext Hrefs Hnd Hes He)
    as (new & o & Hstage & Hout & Ho & Hold & _ & Hrefs1 & Ho1 & Hs1).
  fold first in Hstage, Hout, Hold, Hrefs1, Ho1, Hs1.
  exists new. split; [done |]. cbv zeta. simpl.
  set (s1 := first.1.1) in *.
  assert (subtitle s1 = Some sub /\ editMode s1 = editMode s
          /\ editedTime s1 = editedTime s /\ editedText s1 = editedText s
          /\ currentSubtitleIndex s1 = currentSubtitleIndex s)
    as (Hsub1 & Hm1 & Ht1 & Hx1 & Hi1) by (rewrite Hs1; done).
  split; [done |]. split; [done |]. split; [done |]. split; [done |].
  set (saved := mkEntry (index e) (startTime e) (endTime e)
                  (EditedTime.startTime (editedTime s))
                  (EditedTime.endTime (editedTime s)) (trim (editedText s))) in *.
  assert (item (<[Z.to_nat (currentSubtitleIndex s) := saved]> es)
            (currentSubtitleIndex s1) = Some saved) as He1.
  { rewrite Hi1. apply item_Some. apply item_Some in He as [Hpos He]. split; [done |].
    apply list_lookup_insert_eq. by eapply lookup_lt_Some. }
  destruct (save_content s1 sub refs _ saved Hsub1 ltac:(by rewrite Hx1) Hrefs1 Hnd
              Hold He1) as (new2 & o2 & _ & Hout2 & Ho2 & Hold2 & _).
  assert (o2 = o) as -> by congruence.
  rewrite Hout2, Hold2, Hout, Hold, Hi1, Ht1, Hx1. simpl.
  rewrite list_insert_insert_eq. done.
Qed.

(** The sample calibration saved, refused and saved again. *)
Lemma save_retry_same_witness :
  let first := PlayPage.handleSaveSubtitleEdit calibrating in
  exists new,
    first.2 = PlayPage.Awaiting new
    /\ (PlayPage.handleSaveSubtitleEdit
          (PlayPage.handleSaveSubtitleEdit_resume new false first.1.1).1).1.2
       = first.1.2.
Proof.
  intros first.
  assert (trim (editedText calibrating) <> []) as Htext by (vm_compute; discriminate).
  assert (NoDup [1%positive; 2%positive]) as Hnd
    by (apply NoDup_cons; split; [by intros ?%list_elem_of_singleton |
        apply NoDup_singleton]).
  destruct (save_retry_same calibrating 1%positive [1%positive; 2%positive]
              adjacent (mkEntry 0 0 1000 0 1000 []) eq_refl Htext eq_refl Hnd eq_refl
              eq_refl) as (new & H1 & _ & _ & _ & _ & H2 & _).
  exists new. split; [exact H1 | exact H2].
Defined.

Lemma total_perm b os os' : os ≡ₚ os' -> total b os = total b os'.
Proof.
  induction 1 as [| [[o b1] f1] l l' _ IH | [[o1 b1] f1] [[o2 b2] f2] l | l1 l2 l3 _ IH1 _ IH2];
    simpl; [done | by rewrite IH | lia | congruence].
Qed.

Lemma offsets_total os : forall s,
  editedTime (offsets os s)
  = EditedTime.mk (EditedTime.startTime (editedTime s) + total true os)
      (EditedTime.endTime (editedTime s) + total false os).
Proof.
  unfold offsets. induction os as [| [[o b] f] os IH]; intros s; simpl.
  - destruct (editedTime s). simpl. f_equal; lia.
  - rewrite IH. unfold PlayPage.handleTimeOffset. simpl.
    destruct b, f; simpl; f_equal; lia.
Qed.

(** X25: the edit buffer after any sequence of offsets is the buffer
    before plus, for each boundary, the signed sum of the offsets that
    name it (forward counts +offset, backward -offset); so the order of
    the offsets does not matter, offsets on one boundary never move the
    other, and an offset followed by the same offset in the other
    direction leaves the buffer as it was. *)
Theorem offsets_sum :
  (forall os s,
     editedTime (offsets os s)
     = EditedTime.mk (EditedTime.startTime (editedTime s) + total true os)
         (EditedTime.endTime (editedTime s) + total false os))
  /\ (forall os os' s, os ≡ₚ os' ->
        editedTime (offsets os s) = editedTime (offsets os' s))
  /\ (forall offset b f s,
        offsets [(offset, b, f); (offset, b, negb f)] s = s).
Proof.
  split; [exact offsets_total |]. split.
  - intros os os' s Hperm.
    by rewrite !offsets_total, (total_perm true os os'), (total_perm false os os').
  - intros offset b f s. rewrite offsets_buffer, offsets_total. simpl.
    destruct s as [? ? ? ? ? ? [x y] ? ? ? ?]. unfold setEditedTime. simpl.
    do 2 f_equal; destruct b, f; simpl; lia.
Qed.
